(** * useScrollAnimation: the observation/activation state machine

    A shallow embedding of [src/useScrollAnimation.js] (the React hook and the
    two closures it builds: the intersection callback and the effect cleanup),
    together with the part of the browser the hook talks to: element class
    lists, [document.querySelectorAll] and the [IntersectionObserver] object
    with its constructor and its [observe], [unobserve] and [takeRecords]
    methods. *)

From Stdlib Require Import QArith Ascii.
From stdpp Require Import base list strings.

Local Open Scope string_scope.
Local Open Scope nat_scope.

(** ** JavaScript values of the options object *)

(** The fields of [options] are read as they come: a field that is not on the
    object reads as [undefined]; conditions use JavaScript truthiness. *)
Inductive jsval : Type :=
  | JUndefined
  | JNull
  | JBool (b : bool)
  | JNum (q : Q)
  | JStr (s : string)
  | JNums (qs : list Q).

Definition truthy (v : jsval) : bool :=
  match v with
  | JUndefined | JNull => false
  | JBool b => b
  | JNum q => negb (Qeq_bool q 0)
  | JStr s => negb (String.eqb s EmptyString)
  | JNums _ => true
  end.

(** [a || b] *)
Definition js_or (a b : jsval) : jsval := if truthy a then a else b.

(** The [options] object: [{ threshold, triggerOnce, rootMargin }]. *)
Record Options : Type := mkOptions {
  threshold : jsval;
  triggerOnce : jsval;
  rootMargin : jsval
}.

(** ** Exceptions and completions *)

(** The exceptions the host throws at the hook: [new IntersectionObserver]
    where the constructor is not defined ([ReferenceError]) or does not take
    the init dictionary ([RangeError], [SyntaxError], [TypeError]), a selector
    that does not parse ([SyntaxError]), a class token that is empty
    ([SyntaxError]) or holds white space ([InvalidCharacterError]). *)
Inductive JsError : Type :=
  | ReferenceError
  | SyntaxError
  | InvalidCharacterError
  | RangeError
  | TypeError.

(** A completion: a value, or an exception together with the state it was
    thrown in. *)
Inductive completion (S A : Type) : Type :=
  | Ok (a : A)
  | Throw (e : JsError) (s : S).

Arguments Ok {S A} a.
Arguments Throw {S A} e s.

#[global] Instance completion_bind {S : Type} : MBind (completion S) :=
  λ A B k r,
    match r with
    | Ok a => k a
    | Throw e s => Throw e s
    end.

(** The state a completion ends in, where value and state are the same
    thing. *)
Definition settled {S : Type} (r : completion S S) : S :=
  match r with
  | Ok s => s
  | Throw _ s => s
  end.

(** [list.forEach(f)]: the elements in order; an exception ends the loop. *)
Fixpoint forEach {S A : Type} (f : S → A → completion S S) (l : list A) (s : S)
  : completion S S :=
  match l with
  | [] => Ok s
  | x :: l =>
      match f s x with
      | Ok s' => forEach f l s'
      | Throw e s' => Throw e s'
      end
  end.

(** ** Elements and their class lists *)

(** An element is known by its identity. *)
Definition Target : Type := nat.

(** Tab, line feed, form feed, carriage return and space. *)
Definition is_ascii_whitespace (a : ascii) : bool :=
  let n := nat_of_ascii a in
  Nat.eqb n 9 || Nat.eqb n 10 || Nat.eqb n 12 || Nat.eqb n 13 || Nat.eqb n 32.

Fixpoint has_whitespace (s : string) : bool :=
  match s with
  | EmptyString => false
  | String a s => is_ascii_whitespace a || has_whitespace s
  end.

(** What [classList.add] and [classList.remove] throw on a token before
    they touch the list. *)
Definition token_error (c : string) : option JsError :=
  match c with
  | EmptyString => Some SyntaxError
  | String _ _ => if has_whitespace c then Some InvalidCharacterError else None
  end.

(** [element.classList] is an ordered set of tokens: [add] appends a token
    that is not there yet, [remove] takes it out; both throw on a token that
    is not well formed and leave the list alone then. *)
Definition classList_add (c : string) (l : list string)
  : completion (list string) (list string) :=
  match token_error c with
  | Some e => Throw e l
  | None => Ok (if decide (c ∈ l) then l else (l ++ [c])%list)
  end.

Definition classList_remove (c : string) (l : list string)
  : completion (list string) (list string) :=
  match token_error c with
  | Some e => Throw e l
  | None => Ok (filter (λ x, x ≠ c) l)
  end.

(** The class lists of the elements of the page. *)
Definition Dom : Type := Target → list string.

Definition dom_set (t : Target) (l : list string) (dom : Dom) : Dom :=
  λ t', if decide (t' = t) then l else dom t'.

(** [t.classList.add(c)] and [t.classList.remove(c)] *)
Definition dom_add (t : Target) (c : string) (dom : Dom) : completion Dom Dom :=
  match classList_add c (dom t) with
  | Ok l => Ok (dom_set t l dom)
  | Throw e _ => Throw e dom
  end.

Definition dom_remove (t : Target) (c : string) (dom : Dom) : completion Dom Dom :=
  match classList_remove c (dom t) with
  | Ok l => Ok (dom_set t l dom)
  | Throw e _ => Throw e dom
  end.

(** ** The observation engine *)

(** An [IntersectionObserverEntry], as far as the hook reads it. *)
Record Entry : Type := mkEntry {
  target : Target;
  isIntersecting : bool
}.

(** The intersection callback is a closure over the [visibleClass] and the
    [options] of the evaluation that built it. *)
Record Callback : Type := mkCallback {
  cb_visibleClass : string;
  cb_options : Options
}.

(** An [IntersectionObserver] object: the callback and the init dictionary it
    was constructed with, the targets it observes ([[ObservationTargets]])
    and the records it has queued and not delivered yet ([[QueuedEntries]]).
    [io_id] tells instances apart. *)
Record IntersectionObserver : Type := mkObserver {
  io_id : nat;
  io_callback : Callback;
  io_threshold : jsval;
  io_rootMargin : jsval;
  io_targets : list Target;
  io_queue : list Entry
}.

(** [observer.observe(t)]: registers [t] unless it is registered already. *)
Definition observe (t : Target) (o : IntersectionObserver) : IntersectionObserver :=
  if decide (t ∈ io_targets o) then o
  else mkObserver (io_id o) (io_callback o) (io_threshold o) (io_rootMargin o)
         (io_targets o ++ [t]) (io_queue o).

(** [observer.unobserve(t)]: takes [t] out of the observed targets; the
    records already queued stay queued. *)
Definition unobserve (t : Target) (o : IntersectionObserver) : IntersectionObserver :=
  mkObserver (io_id o) (io_callback o) (io_threshold o) (io_rootMargin o)
    (filter (λ t', t' ≠ t) (io_targets o)) (io_queue o).

(** [observer.takeRecords()]: hands over the queued records and empties the
    queue. *)
Definition takeRecords (o : IntersectionObserver) : list Entry * IntersectionObserver :=
  (io_queue o,
   mkObserver (io_id o) (io_callback o) (io_threshold o) (io_rootMargin o)
     (io_targets o) []).

(** ** The intersection callback (lines 11-24) *)

(** The objects the closures of the hook mutate: the class lists and the
    observer. *)
Definition Live : Type := Dom * IntersectionObserver.

(** The body of [entries.forEach(entry => ...)]. *)
Definition handleEntry (cb : Callback) (st : Live) (entry : Entry)
  : completion Live Live :=
  let '(dom, observer) := st in
  if isIntersecting entry then
    match dom_add (target entry) (cb_visibleClass cb) dom with
    | Throw e _ => Throw e (dom, observer)
    | Ok dom =>
        if truthy (triggerOnce (cb_options cb))
        then Ok (dom, unobserve (target entry) observer)
        else Ok (dom, observer)
    end
  else
    if negb (truthy (triggerOnce (cb_options cb)))
    then
      match dom_remove (target entry) (cb_visibleClass cb) dom with
      | Throw e _ => Throw e (dom, observer)
      | Ok dom => Ok (dom, observer)
      end
    else Ok (dom, observer).

Definition intersectionCallback (cb : Callback) (entries : list Entry) (st : Live)
  : completion Live Live :=
  forEach (handleEntry cb) entries st.

(** ** The page and the hook instance *)

(** What one hook instance works on: the host ([IntersectionObserver]
    defined or not, what its constructor throws on a [threshold] and a
    [rootMargin], what [document.querySelectorAll] answers, the class lists,
    how many observers were constructed so far) and [observerRef.current]. *)
Record State : Type := mkState {
  supported : bool;
  initError : jsval → jsval → option JsError;
  querySelectorAll : string → option (list Target);
  classes : Dom;
  constructed : nat;
  observerRef : option IntersectionObserver
}.

Abbreviation result := (completion State).

(** The page as the instance whose ref is [r] sees it. *)
Definition with_ref (r : option IntersectionObserver) (s : State) : State :=
  mkState (supported s) (initError s) (querySelectorAll s) (classes s)
    (constructed s) r.

(** The page after a closure of the instance has worked on the class lists
    and on the observer of the ref. *)
Definition with_live (st : Live) (s : State) : State :=
  mkState (supported s) (initError s) (querySelectorAll s) st.1
    (constructed s) (Some st.2).

(** [useRef(null)] on the first render of the instance. *)
Definition useRef_null (s : State) : State := with_ref None s.

(** ** The effect (lines 26-45) *)

(** Lines 27-30: [new IntersectionObserver(intersectionCallback, {...})] once
    the host has taken the init dictionary.  The callback closes over the
    [visibleClass] and [options] of this evaluation. *)
Definition newObserver (visibleClass : string) (options : Options) (s : State)
  : IntersectionObserver :=
  mkObserver (constructed s) (mkCallback visibleClass options)
    (threshold options) (js_or (rootMargin options) (JStr "0px")) [] [].

(** Lines 26-32: [observerRef.current] is filled on the first evaluation only;
    [observer] is that object from then on.  The constructor throws where it
    is not defined, and where it does not take the threshold or the root
    margin it is given. *)
Definition ensureObserver (visibleClass : string) (options : Options) (s : State)
  : result (IntersectionObserver * State) :=
  match observerRef s with
  | Some observer => Ok (observer, s)
  | None =>
      if supported s then
        match initError s (threshold options)
                (js_or (rootMargin options) (JStr "0px")) with
        | Some e => Throw e s
        | None =>
            let observer := newObserver visibleClass options s in
            Ok (observer,
                mkState (supported s) (initError s) (querySelectorAll s) (classes s)
                  (S (constructed s)) (Some observer))
        end
      else Throw ReferenceError s
  end.

(** Lines 35-45: the body of [targets.forEach(target => ...)]. *)
Definition attachTarget (visibleClass : string) (options : Options)
    (st : Live) (t : Target) : completion Live Live :=
  let '(dom, observer) := st in
  let '(records, observer) := takeRecords observer in
  let alreadyVisible :=
    existsb (λ entry, bool_decide (target entry = t) && isIntersecting entry) records in
  if alreadyVisible then
    match dom_add t visibleClass dom with
    | Throw e _ => Throw e (dom, observer)
    | Ok dom =>
        if negb (truthy (triggerOnce options))
        then Ok (dom, observe t observer)
        else Ok (dom, observer)
    end
  else Ok (dom, observe t observer).

(** The effect: it answers the state it leaves and the node list [targets]
    that the cleanup closure keeps. *)
Definition effect (targetSelector visibleClass : string) (options : Options)
    (s : State) : result (State * list Target) :=
  '(observer, s1) ← ensureObserver visibleClass options s;
  match querySelectorAll s1 targetSelector with
  | None => Throw SyntaxError s1
  | Some targets =>
      match forEach (attachTarget visibleClass options) targets (classes s1, observer) with
      | Ok st => Ok (with_live st s1, targets)
      | Throw e st => Throw e (with_live st s1)
      end
  end.

(** ** The cleanup (lines 47-51) *)

(** The closure keeps the node list [targets] of its evaluation and the
    [observer] of line 32, which is the object in [observerRef.current]: the
    ref is written once, so the two names stand for one object all along. *)
Definition cleanup (targets : list Target) (s : State) : State :=
  match observerRef s with
  | Some observer =>
      with_ref (Some (fold_left (λ o t, unobserve t o) targets observer)) s
  | None => s
  end.

(** ** The hook (lines 3-7) *)

(** The arguments of a call; [None] is an argument that is left out (or
    [undefined]), for which the default of the parameter list stands in. *)
Record Args : Type := mkArgs {
  a_targetSelector : string;
  a_visibleClass : option string;
  a_options : option Options
}.

Definition default_visibleClass : string := "is-visible".

(** [{ threshold: 0.1, triggerOnce: true }] *)
Definition default_options : Options :=
  mkOptions (JNum (1 # 10)) (JBool true) JUndefined.

Definition visibleClass_of (a : Args) : string :=
  default default_visibleClass (a_visibleClass a).

Definition options_of (a : Args) : Options :=
  default default_options (a_options a).

(** One evaluation of the effect of [useScrollAnimation(...)]. *)
Definition useScrollAnimation (a : Args) (s : State) : result (State * list Target) :=
  effect (a_targetSelector a) (visibleClass_of a) (options_of a) s.

(** ** The session: mount, re-evaluation, unmount, and the host in between *)

(** A mounted instance: the state, and the [targets] held by the cleanup of
    the last evaluation. *)
Record Session : Type := mkSession {
  s_state : State;
  s_targets : list Target
}.

Definition mount (a : Args) (s : State) : result Session :=
  '(s', targets) ← useScrollAnimation a (useRef_null s);
  Ok (mkSession s' targets).

(** A dependency changed: the cleanup of the last evaluation runs, then the
    effect is evaluated again. *)
Definition reevaluate (a : Args) (ss : Session) : result Session :=
  '(s', targets) ← useScrollAnimation a (cleanup (s_targets ss) (s_state ss));
  Ok (mkSession s' targets).

Definition unmount (ss : Session) : State :=
  cleanup (s_targets ss) (s_state ss).

(** What the host does between the calls of the hook: the engine queues
    records, for targets it observes; it delivers the queued records to the
    callback; the document changes. *)
Inductive HostEvent : Type :=
  | HQueue (es : list Entry)
  | HNotify
  | HDocument (q : string → option (list Target)).

Definition queueEntries (es : list Entry) (o : IntersectionObserver) : IntersectionObserver :=
  mkObserver (io_id o) (io_callback o) (io_threshold o) (io_rootMargin o)
    (io_targets o)
    (io_queue o ++ filter (λ e, target e ∈ io_targets o) es).

(** The engine empties its queue and invokes [callback(queue, observer)];
    nothing is invoked on an empty queue.  An exception of the callback is
    reported by the host and goes no further: what the callback had done
    before it stays done. *)
Definition notify (s : State) : State :=
  match observerRef s with
  | Some o =>
      match io_queue o with
      | [] => s
      | _ :: _ =>
          let '(records, o) := takeRecords o in
          with_live (settled (intersectionCallback (io_callback o) records (classes s, o))) s
      end
  | None => s
  end.

Definition host_step (s : State) (h : HostEvent) : State :=
  match h with
  | HQueue es => with_ref (queueEntries es <$> observerRef s) s
  | HNotify => notify s
  | HDocument q =>
      mkState (supported s) (initError s) q (classes s) (constructed s) (observerRef s)
  end.

Definition host_run (hs : list HostEvent) (s : State) : State :=
  fold_left host_step hs s.

Inductive Event : Type :=
  | EHost (h : HostEvent)
  | ERender (a : Args).

Definition step (ev : Event) (ss : Session) : result Session :=
  match ev with
  | EHost h => Ok (mkSession (host_step (s_state ss) h) (s_targets ss))
  | ERender a => reevaluate a ss
  end.

Fixpoint run (evs : list Event) (ss : Session) : result Session :=
  match evs with
  | [] => Ok ss
  | ev :: evs => ss' ← step ev ss; run evs ss'
  end.

(** The targets under observation ([[ObservationTargets]] of the engine of
    the instance; none before the engine exists). *)
Definition observed (s : State) : list Target :=
  match observerRef s with
  | Some o => io_targets o
  | None => []
  end.

(** ** Notions used by the statements *)

(** Two snapshots of one observer object: the same instance, with the
    callback and the init dictionary it was constructed with. *)
Definition same_engine (o o' : IntersectionObserver) : Prop :=
  io_id o' = io_id o ∧ io_callback o' = io_callback o
  ∧ io_threshold o' = io_threshold o ∧ io_rootMargin o' = io_rootMargin o.

(** The invariant of a mounted instance whose first evaluation built [o0]
    as observer number [n]: [observerRef.current] is still that object, no
    other was constructed, and what it observes is among the [targets] that
    the pending cleanup will release. *)
Definition mounted (o0 : IntersectionObserver) (n : nat) (ss : Session) : Prop :=
  ∃ o, observerRef (s_state ss) = Some o
       ∧ same_engine o0 o
       ∧ constructed (s_state ss) = n
       ∧ (∀ t, t ∈ io_targets o → t ∈ s_targets ss).

(** Whether the host delivers at all in a sequence of events. *)
Definition delivers (hs : list HostEvent) : bool :=
  existsb (λ h, match h with HNotify => true | _ => false end) hs.

(** The markers that the re-evaluations of a run are called with. *)
Definition markers_of (evs : list Event) : list string :=
  omap (λ ev, match ev with
              | ERender a => Some (visibleClass_of a)
              | EHost _ => None
              end) evs.

(** ** A host to run the scenarios on *)

(** How the constructor of this host reads its init dictionary: [threshold]
    is turned into numbers (a string as the decimal literal it spells, the
    booleans as 0 and 1, [null] as 0, [undefined] as the default 0) that must
    lie in [0, 1]; [rootMargin] is turned into a string of at most four
    margins, decimal numbers with [px] or [%] behind them. *)
Definition is_digit (a : ascii) : bool :=
  let n := nat_of_ascii a in Nat.leb 48 n && Nat.leb n 57.

Fixpoint take_digits (s : string) (acc count : nat) : nat * nat * string :=
  match s with
  | String a s' =>
      if is_digit a then take_digits s' (10 * acc + (nat_of_ascii a - 48)) (S count)
      else (acc, count, s)
  | EmptyString => (acc, count, s)
  end.

Fixpoint drop_whitespace (s : string) : string :=
  match s with
  | String a s' => if is_ascii_whitespace a then drop_whitespace s' else s
  | EmptyString => s
  end.

(** An unsigned decimal at the head of a string: how many digits before and
    after the point, whether there is a point, the value, and what follows. *)
Definition read_decimal (s : string) : nat * nat * bool * Q * string :=
  let '(i, ni, r1) := take_digits s 0 0 in
  match r1 with
  | String "."%char r2 =>
      let '(f, nf, r3) := take_digits r2 0 0 in
      (ni, nf, true, Qmake (Z.of_nat (i * 10 ^ nf + f)) (Pos.of_nat (10 ^ nf)), r3)
  | _ => (ni, 0, false, inject_Z (Z.of_nat i), r1)
  end.

Definition strip_sign (s : string) : bool * string :=
  match s with
  | String "-"%char s' => (true, s')
  | String "+"%char s' => (false, s')
  | _ => (false, s)
  end.

(** The number a string converts to; [None] is [NaN]. *)
Definition number_of_string (s : string) : option Q :=
  match drop_whitespace s with
  | EmptyString => Some 0%Q
  | s1 =>
      let '(negative, s2) := strip_sign s1 in
      let '(ni, nf, _, q, r) := read_decimal s2 in
      if Nat.ltb 0 (ni + nf) && String.eqb (drop_whitespace r) EmptyString
      then Some (if negative then Qopp q else q)
      else None
  end.

Definition in_unit_interval (q : Q) : bool := Qle_bool 0 q && Qle_bool q 1.

(** The thresholds an init dictionary asks for; [None] where the conversion
    fails. *)
Definition thresholds_of (v : jsval) : option (list Q) :=
  match v with
  | JUndefined | JNull => Some [0%Q]
  | JBool b => Some [if b then 1%Q else 0%Q]
  | JNum q => Some [q]
  | JNums qs => Some qs
  | JStr s => (λ q, [q]) <$> number_of_string s
  end.

Fixpoint split_whitespace (s cur : string) : list string :=
  match s with
  | EmptyString => if String.eqb cur EmptyString then [] else [cur]
  | String a s' =>
      if is_ascii_whitespace a
      then (if String.eqb cur EmptyString then split_whitespace s' EmptyString
            else cur :: split_whitespace s' EmptyString)
      else split_whitespace s' (cur ++ String a EmptyString)
  end.

Definition is_margin (tok : string) : bool :=
  let '(_, s) := strip_sign tok in
  let '(ni, nf, point, _, unit) := read_decimal s in
  (Nat.ltb 0 nf || (Nat.ltb 0 ni && negb point))
  && (String.eqb unit "px" || String.eqb unit "%").

Definition margins_parse (s : string) : bool :=
  let toks := split_whitespace s EmptyString in
  Nat.leb (length toks) 4 && forallb is_margin toks.

(** The string a root margin converts to, as far as its parse depends on
    it: no number, boolean or [null] spells a margin, and of the lists only
    the empty one (the empty string) does. *)
Definition rootMargin_parses (v : jsval) : bool :=
  match v with
  | JUndefined => true
  | JStr s => margins_parse s
  | JNums [] => true
  | JNull | JBool _ | JNum _ | JNums (_ :: _) => false
  end.

Definition standard_initError (th rm : jsval) : option JsError :=
  match thresholds_of th with
  | None => Some TypeError
  | Some qs =>
      if negb (rootMargin_parses rm) then Some SyntaxError
      else if forallb in_unit_interval qs then None
      else Some RangeError
  end.

(** ** A page to run the scenarios on *)

Definition elA : Target := 0.
Definition elB : Target := 1.

(** Two elements carry the class [x]; the empty selector does not parse;
    any other selector matches nothing.  No element has a marker yet. *)
Definition document_x (selector : string) : option (list Target) :=
  if String.eqb selector ".x" then Some [elA; elB]
  else if String.eqb selector EmptyString then None
  else Some [].

Definition page (supported : bool) : State :=
  mkState supported standard_initError document_x (λ _, []) 0 None.

(** What a scenario looks at: the class lists of the two elements and the
    targets under observation. *)
Definition snapshot (ss : Session) : list string * list string * list Target :=
  (classes (s_state ss) elA, classes (s_state ss) elB, observed (s_state ss)).

(** The calls of the scenarios: [useScrollAnimation('.x', undefined,
    {threshold: 0.5, triggerOnce: true})], the same with an options object
    that has [threshold] only, and one that has [triggerOnce] only. *)
Definition once_half : Args :=
  mkArgs ".x" None (Some (mkOptions (JNum (1 # 2)) (JBool true) JUndefined)).

Definition only_threshold : Args :=
  mkArgs ".x" None (Some (mkOptions (JNum (1 # 2)) JUndefined JUndefined)).

Definition only_triggerOnce : Args :=
  mkArgs ".x" None (Some (mkOptions JUndefined (JBool true) JUndefined)).

Definition all_defaults : Args := mkArgs ".x" None None.

(** The session a completion holds. *)
Definition completed (r : result Session) : Session :=
  match r with
  | Ok ss => ss
  | Throw _ s => mkSession s []
  end.

Definition outcome (r : result Session)
  : option (list string * list string * list Target) :=
  match r with
  | Ok ss => Some (snapshot ss)
  | Throw _ _ => None
  end.

(** Whether the marker is on [t] after each entry of [es] in turn. *)
Definition marker_trace (cb : Callback) (es : list Entry) (st : Live) (t : Target)
  : list bool :=
  (λ n, bool_decide
          (cb_visibleClass cb ∈ (settled (intersectionCallback cb (take n es) st)).1 t))
    <$> seq 1 (length es).

(** What the engine of a session was constructed with: the marker and the
    [triggerOnce] its callback closes over, [threshold] and [rootMargin]. *)
Definition engine_init (r : result Session)
  : option (string * jsval * jsval * jsval) :=
  match r with
  | Ok ss =>
      (λ o, (cb_visibleClass (io_callback o), triggerOnce (cb_options (io_callback o)),
             io_threshold o, io_rootMargin o)) <$> observerRef (s_state ss)
  | Throw _ _ => None
  end.

(** A session in which the engine has queued a report on each element and
    has not delivered it yet, and the engine of that session once the
    cleanup has run. *)
Definition pending_session : Session :=
  completed (run [EHost (HQueue [mkEntry elA true; mkEntry elB true])]
               (completed (mount once_half (page true)))).

Definition pending_engine : IntersectionObserver :=
  default (newObserver "is-visible" default_options (page true))
    (observerRef (unmount pending_session)).

(** ** A component that calls the hook several times (App.js) *)

(** Every call of the hook in a component is an instance with a ref and a
    pending cleanup of its own; the instances share the page. *)
Record Hook : Type := mkHook {
  h_ref : option IntersectionObserver;
  h_targets : list Target
}.

(** The first render of a component: the effects run in the order of the
    calls, each on a new ref.  In the state that is handed on,
    [observerRef] is the ref of the instance that ran last. *)
Fixpoint mount_calls (calls : list Args) (s : State) : result (State * list Hook) :=
  match calls with
  | [] => Ok (s, [])
  | a :: calls =>
      '(s1, targets) ← useScrollAnimation a (useRef_null s);
      '(s2, hooks) ← mount_calls calls s1;
      Ok (s2, mkHook (observerRef s1) targets :: hooks)
  end.

(** The three calls of [App] (App.js, lines 6-18). *)
Definition App_calls : list Args :=
  [mkArgs ".animate-on-scroll" (Some "is-visible")
     (Some (mkOptions (JNum (9 # 10)) (JBool true) JUndefined));
   mkArgs ".animate-fade-in" (Some "is-visible")
     (Some (mkOptions (JNum (2 # 10)) (JBool true) JUndefined));
   mkArgs ".animate-slide-left" (Some "is-visible")
     (Some (mkOptions (JNum (5 # 10)) (JBool true) JUndefined))].




(** The tree that [App] renders (App.js, lines 22-48), in document order,
    every element with its class names: the outer [div], then four sections
    with their children. *)
Definition App_tree : list (list string) :=
  [ [];
    []; ["animate-on-scroll"]; ["animate-on-scroll"]; ["animate-fade-in"];
    []; ["animate-slide-left"]; ["animate-on-scroll"]; ["animate-slide-left"];
    []; ["animate-on-scroll"]; ["animate-fade-in"]; ["animate-on-scroll"];
    []; ["animate-slide-left"]; ["animate-on-scroll"]; ["animate-fade-in"] ].

(** The class selectors on that tree; the empty selector does not parse;
    the tree is asked for nothing else. *)
Definition App_query (selector : string) : option (list Target) :=
  match selector with
  | EmptyString => None
  | String "."%char name =>
      Some (flat_map (λ t, if bool_decide (name ∈ default [] (App_tree !! t))
                           then [t] else [])
              (seq 0 (length App_tree)))
  | _ => Some []
  end.

Definition App_page : State :=
  mkState true standard_initError App_query (λ t, default [] (App_tree !! t)) 0 None.



(** * Properties *)

(** ** Loops that an exception can end *)

Lemma forEach_app {S A : Type} (f : S → A → completion S S) l1 l2 s :
  forEach f (l1 ++ l2) s
  = match forEach f l1 s with
    | Ok s' => forEach f l2 s'
    | Throw e s' => Throw e s'
    end.
Proof.
  revert s. induction l1 as [| x l1 IH]; intros s; simpl; [done |].
  destruct (f s x) as [s' | e s']; [apply IH | done].
Qed.

(** What every turn keeps, the loop keeps, whether it ends by itself or by
    an exception. *)
Lemma forEach_settled_ind {S A : Type} (f : S → A → completion S S)
    (R : S → S → Prop) l s :
  (∀ s, R s s) →
  (∀ s1 s2 s3, R s1 s2 → R s2 s3 → R s1 s3) →
  (∀ s x, x ∈ l → R s (settled (f s x))) →
  R s (settled (forEach f l s)).
Proof.
  intros Hrefl Htrans. revert s.
  induction l as [| x l IH]; intros s Hstep; simpl; [apply Hrefl |].
  pose proof (Hstep s x (list_elem_of_here _ _)) as Hx.
  destruct (f s x) as [s' | e s']; simpl in *; [| done].
  eapply Htrans; [apply Hx |]. apply IH. intros s1 y Hy. apply Hstep. by right.
Qed.

Lemma forEach_total {S A : Type} (f : S → A → completion S S) l s :
  (∀ s x, x ∈ l → ∃ s', f s x = Ok s') →
  ∃ s', forEach f l s = Ok s'.
Proof.
  revert s. induction l as [| x l IH]; intros s Hstep; simpl; [by eexists |].
  destruct (Hstep s x (list_elem_of_here _ _)) as [s' ->].
  apply IH. intros s1 y Hy. apply Hstep. by right.
Qed.

(** ** Class lists *)

Lemma dom_set_same t l dom : dom_set t l dom t = l.
Proof. unfold dom_set. by rewrite decide_True. Qed.

Lemma dom_set_other t t' l dom : t' ≠ t → dom_set t l dom t' = dom t'.
Proof. intros Hne. unfold dom_set. by rewrite decide_False. Qed.

Lemma dom_add_inv t c dom r :
  dom_add t c dom = r →
  match r with
  | Ok dom' =>
      token_error c = None
      ∧ c ∈ dom' t
      ∧ (c ∈ dom t → dom' t = dom t)
      ∧ (∀ t', t' ≠ t → dom' t' = dom t')
      ∧ (∀ c' t', c' ∈ dom t' → c' ∈ dom' t')
      ∧ (∀ c' t', c' ≠ c → c' ∈ dom' t' ↔ c' ∈ dom t')
  | Throw e dom' => token_error c = Some e ∧ dom' = dom
  end.
Proof.
  intros <-. unfold dom_add, classList_add.
  destruct (token_error c) as [e |]; [done |].
  split; [done |]. split.
  { rewrite dom_set_same. case_decide; [done |].
    apply elem_of_app. right. by apply list_elem_of_singleton. }
  split. { intros Hin. rewrite dom_set_same. by rewrite decide_True. }
  split. { intros t' Hne. by apply dom_set_other. }
  split.
  - intros c' t' Hin. unfold dom_set. case_decide; subst; [| done].
    case_decide; [done |]. apply elem_of_app. by left.
  - intros c' t' Hne. unfold dom_set. case_decide; subst; [| done].
    case_decide; [done |]. rewrite elem_of_app, list_elem_of_singleton. tauto.
Qed.

Lemma dom_remove_inv t c dom r :
  dom_remove t c dom = r →
  match r with
  | Ok dom' =>
      token_error c = None
      ∧ (c ∉ dom' t)
      ∧ (∀ t', t' ≠ t → dom' t' = dom t')
      ∧ (∀ c' t', c' ≠ c → c' ∈ dom' t' ↔ c' ∈ dom t')
  | Throw e dom' => token_error c = Some e ∧ dom' = dom
  end.
Proof.
  intros <-. unfold dom_remove, classList_remove.
  destruct (token_error c) as [e |]; [done |].
  split; [done |]. split.
  { rewrite dom_set_same. intros Hin. apply list_elem_of_filter in Hin as [Hne _].
    by apply Hne. }
  split. { intros t' Hne. by apply dom_set_other. }
  intros c' t' Hne. unfold dom_set. case_decide; subst; [| done].
  rewrite list_elem_of_filter. tauto.
Qed.

Lemma dom_add_valid t c dom :
  token_error c = None → ∃ dom', dom_add t c dom = Ok dom'.
Proof. intros Hc. unfold dom_add, classList_add. rewrite Hc. by eexists. Qed.

Lemma dom_remove_valid t c dom :
  token_error c = None → ∃ dom', dom_remove t c dom = Ok dom'.
Proof. intros Hc. unfold dom_remove, classList_remove. rewrite Hc. by eexists. Qed.

(** ** The engine: what its methods keep *)

Lemma same_engine_refl o : same_engine o o.
Proof. by repeat split. Qed.

Lemma same_engine_trans o1 o2 o3 :
  same_engine o1 o2 → same_engine o2 o3 → same_engine o1 o3.
Proof.
  intros (Ha & Hb & Hc & Hd) (Ha' & Hb' & Hc' & Hd').
  repeat split; congruence.
Qed.

Lemma observe_same t o : same_engine o (observe t o).
Proof. unfold observe. case_decide; by repeat split. Qed.

Lemma unobserve_same t o : same_engine o (unobserve t o).
Proof. by repeat split. Qed.

Lemma elem_of_observe t t' o :
  t' ∈ io_targets (observe t o) ↔ t' ∈ io_targets o ∨ t' = t.
Proof.
  unfold observe. case_decide as Hin; simpl.
  - split; [by left |]. intros [? | ->]; done.
  - rewrite elem_of_app, list_elem_of_singleton. done.
Qed.

Lemma elem_of_unobserve t t' o :
  t' ∈ io_targets (unobserve t o) ↔ t' ∈ io_targets o ∧ t' ≠ t.
Proof. simpl. rewrite list_elem_of_filter. tauto. Qed.

Lemma observe_queue t o : io_queue (observe t o) = io_queue o.
Proof. unfold observe. by case_decide. Qed.

(** Releasing a node list, as the cleanup does. *)
Lemma release_all_spec ts o :
  let o' := fold_left (λ o t, unobserve t o) ts o in
  same_engine o o'
  ∧ (∀ t, t ∈ io_targets o' ↔ t ∈ io_targets o ∧ t ∉ ts)
  ∧ io_queue o' = io_queue o.
Proof.
  revert o. induction ts as [| t ts IH]; intros o; simpl.
  - split; [apply same_engine_refl |]. split; [| done].
    intros t. split; [| tauto]. intros Hin. split; [done |]. apply not_elem_of_nil.
  - destruct (IH (unobserve t o)) as (Hsame & Hin & Hq).
    split; [eapply same_engine_trans; [apply unobserve_same | apply Hsame] |].
    split; [| done].
    intros t'. rewrite Hin, elem_of_unobserve, not_elem_of_cons. tauto.
Qed.

(** ** The callback, one entry at a time *)

Section Callback.
Variable cb : Callback.

Local Abbreviation marker := (cb_visibleClass cb).
Local Abbreviation once := (truthy (triggerOnce (cb_options cb))).

(** An exception of the callback is one of [classList]: the marker is not a
    well-formed token, and the entry has changed nothing. *)
Lemma handleEntry_Throw st e er st' :
  handleEntry cb st e = Throw er st' → token_error marker = Some er ∧ st' = st.
Proof.
  destruct st as [dom o]. unfold handleEntry.
  destruct (isIntersecting e).
  - pose proof (dom_add_inv (target e) marker dom _ eq_refl) as Hadd.
    destruct (dom_add _ _ _) as [dom' | er' dom'].
    + by destruct once.
    + destruct Hadd as [Htok _]. by intros [= <- <-].
  - destruct once; simpl; [done |].
    pose proof (dom_remove_inv (target e) marker dom _ eq_refl) as Hrem.
    destruct (dom_remove _ _ _) as [dom' | er' dom']; [done |].
    destruct Hrem as [Htok _]. by intros [= <- <-].
Qed.

Lemma handleEntry_valid st e :
  token_error marker = None → ∃ st', handleEntry cb st e = Ok st'.
Proof.
  intros Htok. destruct st as [dom o]. unfold handleEntry.
  destruct (dom_add_valid (target e) marker dom Htok) as [d1 ->].
  destruct (dom_remove_valid (target e) marker dom Htok) as [d2 ->].
  destruct (isIntersecting e), once; by eexists.
Qed.

Lemma intersectionCallback_valid es st :
  token_error marker = None → ∃ st', intersectionCallback cb es st = Ok st'.
Proof.
  intros Htok. apply forEach_total. intros s x _. by apply handleEntry_valid.
Qed.

Lemma intersectionCallback_app es1 es2 st :
  intersectionCallback cb (es1 ++ es2) st
  = match intersectionCallback cb es1 st with
    | Ok st' => intersectionCallback cb es2 st'
    | Throw e st' => Throw e st'
    end.
Proof. apply forEach_app. Qed.

(** What an entry does when the callback gets through it. *)
Lemma handleEntry_Ok st e st' :
  handleEntry cb st e = Ok st' →
  (∀ t, t ≠ target e → st'.1 t = st.1 t)
  ∧ (∀ c t, c ≠ marker → c ∈ st'.1 t ↔ c ∈ st.1 t)
  ∧ (∀ t, t ∈ io_targets st'.2 → t ∈ io_targets st.2)
  ∧ same_engine st.2 st'.2
  ∧ io_queue st'.2 = io_queue st.2.
Proof.
  destruct st as [dom o]. unfold handleEntry.
  destruct (isIntersecting e).
  - pose proof (dom_add_inv (target e) marker dom _ eq_refl) as Hadd.
    destruct (dom_add _ _ _) as [dom' | er' dom']; [| done].
    destruct Hadd as (_ & _ & _ & Hframe & _ & Hother).
    destruct once; intros [= <-]; simpl; repeat split; try done; try apply Hother; auto.
    intros t Hin. by apply list_elem_of_filter in Hin as [_ Hin].
  - destruct once; simpl.
    + intros [= <-]. by repeat split.
    + pose proof (dom_remove_inv (target e) marker dom _ eq_refl) as Hrem.
      destruct (dom_remove _ _ _) as [dom' | er' dom']; [| done].
      destruct Hrem as (_ & _ & Hframe & Hother).
      intros [= <-]. simpl. repeat split; try done; try apply Hother; auto.
Qed.

(** The same for the state the entry leaves, exception or not. *)
Lemma handleEntry_settled st e :
  let st' := settled (handleEntry cb st e) in
  (∀ t, t ≠ target e → st'.1 t = st.1 t)
  ∧ (∀ c t, c ≠ marker → c ∈ st'.1 t ↔ c ∈ st.1 t)
  ∧ (∀ t, t ∈ io_targets st'.2 → t ∈ io_targets st.2)
  ∧ same_engine st.2 st'.2
  ∧ io_queue st'.2 = io_queue st.2.
Proof.
  destruct (handleEntry cb st e) as [st' | er st'] eqn:Hh; simpl.
  - by apply handleEntry_Ok.
  - apply handleEntry_Throw in Hh as [_ ->]. repeat split; try done.
Qed.

Lemma intersectionCallback_settled es st :
  let st' := settled (intersectionCallback cb es st) in
  (∀ t, Forall (λ e, target e ≠ t) es → st'.1 t = st.1 t)
  ∧ (∀ c t, c ≠ marker → c ∈ st'.1 t ↔ c ∈ st.1 t)
  ∧ (∀ t, t ∈ io_targets st'.2 → t ∈ io_targets st.2)
  ∧ same_engine st.2 st'.2
  ∧ io_queue st'.2 = io_queue st.2.
Proof.
  unfold intersectionCallback.
  apply (forEach_settled_ind (handleEntry cb)
           (λ s s' : Live,
              (∀ t, Forall (λ e, target e ≠ t) es → s'.1 t = s.1 t)
              ∧ (∀ c t, c ≠ marker → c ∈ s'.1 t ↔ c ∈ s.1 t)
              ∧ (∀ t, t ∈ io_targets s'.2 → t ∈ io_targets s.2)
              ∧ same_engine s.2 s'.2
              ∧ io_queue s'.2 = io_queue s.2)).
  - intros s. repeat split; try done.
  - intros s1 s2 s3 (Ha & Hb & Hc & Hd & He) (Ha' & Hb' & Hc' & Hd' & He').
    split; [intros t Ht; by rewrite Ha', Ha |].
    split; [intros c t Hne; by rewrite Hb', Hb |].
    split; [auto |]. split; [by eapply same_engine_trans | congruence].
  - intros s e He. destruct (handleEntry_settled s e) as (Ha & Hb & Hc & Hd & Hq).
    split; [| done]. intros t Hall. apply Ha.
    intros ->. by apply (proj1 (Forall_forall _ _) Hall e He).
Qed.

(** *** One-shot policy *)
Section Once.
Hypothesis Honce : once = true.

Lemma handleEntry_once_leave st e :
  isIntersecting e = false → handleEntry cb st e = Ok st.
Proof.
  intros He. destruct st as [dom o]. unfold handleEntry.
  by rewrite He, Honce.
Qed.

Lemma handleEntry_once_enter st e st' :
  isIntersecting e = true →
  handleEntry cb st e = Ok st' →
  token_error marker = None
  ∧ marker ∈ st'.1 (target e)
  ∧ target e ∉ io_targets st'.2.
Proof.
  intros He. destruct st as [dom o]. unfold handleEntry. rewrite He, Honce.
  pose proof (dom_add_inv (target e) marker dom _ eq_refl) as Hadd.
  destruct (dom_add _ _ _) as [dom' | er' dom']; [| done].
  destruct Hadd as (Htok & Hin & _). intros [= <-]. simpl.
  repeat split; try done.
  intros Hx. apply list_elem_of_filter in Hx as [Hne _]. by apply Hne.
Qed.

(** A one-shot callback takes no class off, and leaves a marked target's
    class list as it is, whatever is reported. *)
Lemma handleEntry_once_settled st e :
  let st' := settled (handleEntry cb st e) in
  (∀ c t, c ∈ st.1 t → c ∈ st'.1 t)
  ∧ (∀ t, marker ∈ st.1 t → st'.1 t = st.1 t).
Proof.
  destruct (handleEntry cb st e) as [st' | er st'] eqn:Hh; simpl.
  - destruct st as [dom o]. unfold handleEntry in Hh. rewrite Honce in Hh.
    destruct (isIntersecting e); [| by injection Hh as <-].
    pose proof (dom_add_inv (target e) marker dom _ eq_refl) as Hadd.
    destruct (dom_add _ _ _) as [dom' | er' dom']; [| done].
    destruct Hadd as (_ & _ & Hkeep & Hframe & Hgrow & _).
    injection Hh as <-. simpl. split; [done |].
    intros t Hin. destruct (decide (t = target e)) as [-> | Hne]; auto.
  - apply handleEntry_Throw in Hh as [_ ->]. by split.
Qed.

Lemma intersectionCallback_once_settled es st :
  let st' := settled (intersectionCallback cb es st) in
  (∀ c t, c ∈ st.1 t → c ∈ st'.1 t)
  ∧ (∀ t, marker ∈ st.1 t → st'.1 t = st.1 t).
Proof.
  unfold intersectionCallback.
  apply (forEach_settled_ind (handleEntry cb)
           (λ s s' : Live,
              (∀ c t, c ∈ s.1 t → c ∈ s'.1 t)
              ∧ (∀ t, marker ∈ s.1 t → s'.1 t = s.1 t))).
  - intros s. by split.
  - intros s1 s2 s3 [Ha Hb] [Ha' Hb']. split; [auto |].
    intros t Hin. rewrite Hb', Hb; [done | done |]. by rewrite Hb.
  - intros s e _. apply handleEntry_once_settled.
Qed.
End Once.

(** *** Repeating policy *)
Section Repeating.
Hypothesis Hrepeat : once = false.

Lemma handleEntry_repeat_observer st e :
  (settled (handleEntry cb st e)).2 = st.2.
Proof.
  destruct (handleEntry cb st e) as [st' | er st'] eqn:Hh; simpl.
  - destruct st as [dom o]. unfold handleEntry in Hh. rewrite Hrepeat in Hh.
    destruct (isIntersecting e); simpl in Hh.
    + destruct (dom_add _ _ _); [by injection Hh as <- | done].
    + destruct (dom_remove _ _ _); [by injection Hh as <- | done].
  - by apply handleEntry_Throw in Hh as [_ ->].
Qed.

Lemma intersectionCallback_repeat_observer es st :
  (settled (intersectionCallback cb es st)).2 = st.2.
Proof.
  unfold intersectionCallback.
  apply (forEach_settled_ind (handleEntry cb) (λ s s' : Live, s'.2 = s.2));
    [done | congruence |].
  intros s e _. apply handleEntry_repeat_observer.
Qed.

Lemma handleEntry_repeat_mirror st e st' :
  handleEntry cb st e = Ok st' →
  marker ∈ st'.1 (target e) ↔ isIntersecting e = true.
Proof.
  destruct st as [dom o]. unfold handleEntry. rewrite Hrepeat.
  destruct (isIntersecting e); simpl.
  - pose proof (dom_add_inv (target e) marker dom _ eq_refl) as Hadd.
    destruct (dom_add _ _ _) as [dom' | er' dom']; [| done].
    destruct Hadd as (_ & Hin & _). intros [= <-]. simpl. tauto.
  - pose proof (dom_remove_inv (target e) marker dom _ eq_refl) as Hrem.
    destruct (dom_remove _ _ _) as [dom' | er' dom']; [| done].
    destruct Hrem as (_ & Hout & _). intros [= <-]. simpl.
    split; [done | discriminate].
Qed.
End Repeating.
End Callback.

(** ** The callback on batches of entries *)

(** C10: under the one-shot policy ([triggerOnce] truthy), entries that
    report a target as not intersecting change nothing: the callback
    completes, and the class lists and the observer (so the targets under
    observation) are as before, for one such entry and for a whole batch of
    them. *)
Theorem callback_once_leave_changes_nothing cb st es :
  truthy (triggerOnce (cb_options cb)) = true →
  Forall (λ e, isIntersecting e = false) es →
  intersectionCallback cb es st = Ok st
  ∧ (∀ t, (settled (intersectionCallback cb es st)).1 t = st.1 t)
  ∧ io_targets (settled (intersectionCallback cb es st)).2 = io_targets st.2.
Proof.
  intros Honce Hall.
  assert (Heq : intersectionCallback cb es st = Ok st).
  { unfold intersectionCallback. revert st.
    induction Hall as [| e es He _ IH]; intros st; [done |].
    simpl. rewrite handleEntry_once_leave by done. apply IH. }
  by rewrite Heq.
Qed.

Lemma callback_once_leave_changes_nothing_witness :
  let cb := mkCallback "is-visible" (mkOptions (JNum (1 # 10)) (JBool true) JUndefined) in
  let st : Live := (dom_set elA ["is-visible"] (λ _, []),
                    mkObserver 0 cb (JNum (1 # 10)) (JStr "0px") [elA; elB] []) in
  intersectionCallback cb [mkEntry elA false; mkEntry elB false] st = Ok st
  ∧ (∀ t, (settled (intersectionCallback cb [mkEntry elA false; mkEntry elB false] st)).1 t
          = st.1 t)
  ∧ io_targets (settled (intersectionCallback cb [mkEntry elA false; mkEntry elB false] st)).2
    = io_targets st.2.
Proof.
  intros cb st.
  apply (callback_once_leave_changes_nothing cb st [mkEntry elA false; mkEntry elB false]).
  - reflexivity.
  - repeat constructor.
Defined.

(** C4: under the repeating policy ([triggerOnce] falsy) and with a marker
    that [classList] takes, the callback gets through any sequence of
    entries, and after it the marker is on a target exactly when the last
    entry that reported on it said it was intersecting; the callback leaves
    the subscriptions alone, so this goes on for as many cycles as there
    are. *)
Theorem callback_repeat_mirrors_last_report cb st es e later :
  token_error (cb_visibleClass cb) = None →
  truthy (triggerOnce (cb_options cb)) = false →
  Forall (λ e', target e' ≠ target e) later →
  ∃ st', intersectionCallback cb (es ++ e :: later) st = Ok st'
         ∧ (cb_visibleClass cb ∈ st'.1 (target e) ↔ isIntersecting e = true)
         ∧ st'.2 = st.2.
Proof.
  intros Htok Hrepeat Hlater.
  destruct (intersectionCallback_valid cb (es ++ e :: later) st Htok) as [st' Hall].
  exists st'. split; [done |]. split.
  - rewrite intersectionCallback_app in Hall.
    destruct (intersectionCallback cb es st) as [st1 | er st1]; [| done].
    unfold intersectionCallback in Hall. cbn [forEach] in Hall.
    destruct (handleEntry cb st1 e) as [st2 | er st2] eqn:He; [| done].
    destruct (intersectionCallback_settled cb later st2) as (Hframe & _).
    unfold intersectionCallback in Hframe. rewrite Hall in Hframe. simpl in Hframe.
    rewrite Hframe by done. by eapply handleEntry_repeat_mirror.
  - pose proof (intersectionCallback_repeat_observer cb Hrepeat (es ++ e :: later) st)
      as Hobs.
    by rewrite Hall in Hobs.
Qed.

Lemma callback_repeat_mirrors_last_report_witness :
  let cb := mkCallback "is-visible" (mkOptions (JNum 0) (JBool false) JUndefined) in
  let st : Live := (λ _, [], mkObserver 0 cb (JNum 0) (JStr "0px") [elA; elB] []) in
  let es := [mkEntry elA true; mkEntry elA false; mkEntry elA true; mkEntry elA false] in
  ∃ st', intersectionCallback cb (es ++ mkEntry elA true :: [mkEntry elB false]) st = Ok st'
         ∧ ("is-visible" ∈ st'.1 elA ↔ true = true)
         ∧ st'.2 = st.2.
Proof.
  intros cb st es.
  apply (callback_repeat_mirrors_last_report cb st es (mkEntry elA true) [mkEntry elB false]).
  - reflexivity.
  - reflexivity.
  - repeat constructor. simpl. unfold elA, elB. lia.
Defined.

(** The second scenario: [{threshold: 0, triggerOnce: false}] on an element
    that enters, leaves, enters, leaves and enters. *)
Example repeating_scenario :
  let cb := mkCallback "is-visible" (mkOptions (JNum 0) (JBool false) JUndefined) in
  marker_trace cb
    [mkEntry elA true; mkEntry elA false; mkEntry elA true; mkEntry elA false;
     mkEntry elA true]
    (λ _, [], mkObserver 0 cb (JNum 0) (JStr "0px") [elA] []) elA
  = [true; false; true; false; true].
Proof. vm_compute. reflexivity. Qed.

(** C3: under the one-shot policy, once the callback has got through an
    intersecting entry for a target (so [classList.add] has put the marker
    on it), the target carries the marker and is no longer observed;
    whatever entries the callback is handed afterwards, it gets through
    them, the class list of that target stays as it is (the marker is never
    removed) and the target stays out of observation. *)
Theorem callback_once_is_final cb st es t st1 later :
  truthy (triggerOnce (cb_options cb)) = true →
  intersectionCallback cb (es ++ [mkEntry t true]) st = Ok st1 →
  cb_visibleClass cb ∈ st1.1 t
  ∧ (t ∉ io_targets st1.2)
  ∧ ∃ st2, intersectionCallback cb later st1 = Ok st2
           ∧ st2.1 t = st1.1 t
           ∧ cb_visibleClass cb ∈ st2.1 t
           ∧ t ∉ io_targets st2.2.
Proof.
  intros Honce Hfirst.
  rewrite intersectionCallback_app in Hfirst.
  destruct (intersectionCallback cb es st) as [st0 | er st0]; [| done].
  unfold intersectionCallback in Hfirst. cbn [forEach] in Hfirst.
  destruct (handleEntry cb st0 (mkEntry t true)) as [st1' | er st1'] eqn:He; [| done].
  injection Hfirst as <-.
  apply (handleEntry_once_enter cb Honce) in He as (Htok & Hmark & Hout); [| done].
  simpl in Hmark, Hout. split; [done |]. split; [done |].
  destruct (intersectionCallback_valid cb later st1' Htok) as [st2 Hlater].
  exists st2. split; [done |].
  destruct (intersectionCallback_once_settled cb Honce later st1') as [_ Hkeep].
  destruct (intersectionCallback_settled cb later st1') as (_ & _ & Hsub & _).
  rewrite Hlater in Hkeep, Hsub. simpl in Hkeep, Hsub.
  split; [by apply Hkeep |]. split; [by rewrite Hkeep |].
  intros Hin. by apply Hout, Hsub.
Qed.

Lemma callback_once_is_final_witness :
  let cb := mkCallback "is-visible" (mkOptions (JNum (1 # 2)) (JBool true) JUndefined) in
  let st : Live := (λ _, [], mkObserver 0 cb (JNum (1 # 2)) (JStr "0px") [elA; elB] []) in
  let st1 := settled (intersectionCallback cb ([mkEntry elB false] ++ [mkEntry elB true]) st) in
  "is-visible" ∈ st1.1 elB
  ∧ (elB ∉ io_targets st1.2)
  ∧ ∃ st2, intersectionCallback cb [mkEntry elB false; mkEntry elB true; mkEntry elA true] st1
           = Ok st2
           ∧ st2.1 elB = st1.1 elB
           ∧ "is-visible" ∈ st2.1 elB
           ∧ elB ∉ io_targets st2.2.
Proof.
  intros cb st st1.
  apply (callback_once_is_final cb st [mkEntry elB false] elB st1
           [mkEntry elB false; mkEntry elB true; mkEntry elA true]).
  - reflexivity.
  - vm_compute. reflexivity.
Defined.

(** ** The loop over the matched targets *)

Section Attach.
Variable visibleClass : string.
Variable options : Options.

(** With no record pending, a target is subscribed and nothing is marked. *)
Lemma attachTarget_quiet dom o t :
  io_queue o = [] →
  attachTarget visibleClass options (dom, o) t = Ok (dom, observe t o).
Proof.
  intros Hq. destruct o as [i cb th rm ts q]. simpl in Hq. subst q.
  unfold attachTarget, takeRecords. done.
Qed.

(** The loop throws only where [classList.add] does: on a target with a
    pending intersecting record and a marker that is no well-formed token;
    the records are taken by then, and nothing else has happened. *)
Lemma attachTarget_Throw dom o t e r :
  attachTarget visibleClass options (dom, o) t = Throw e r →
  token_error visibleClass = Some e
  ∧ r.1 = dom
  ∧ io_targets r.2 = io_targets o
  ∧ io_queue r.2 = []
  ∧ same_engine o r.2.
Proof.
  unfold attachTarget, takeRecords.
  destruct (existsb _ _); [| done].
  pose proof (dom_add_inv t visibleClass dom _ eq_refl) as Hadd.
  destruct (dom_add _ _ _) as [dom' | er' dom'].
  - by destruct (negb _).
  - destruct Hadd as [Htok _]. intros [= <- <-]. by repeat split.
Qed.

Lemma attachTarget_Ok st t r :
  attachTarget visibleClass options st t = Ok r →
  same_engine st.2 r.2
  ∧ io_queue r.2 = []
  ∧ (∀ t', t' ∈ io_targets r.2 → t' ∈ io_targets st.2 ∨ t' = t)
  ∧ (∀ c t', c ∈ st.1 t' → c ∈ r.1 t')
  ∧ (∀ c t', c ≠ visibleClass → c ∈ r.1 t' ↔ c ∈ st.1 t')
  ∧ (∀ t', t' ≠ t → r.1 t' = st.1 t').
Proof.
  destruct st as [dom o]. unfold attachTarget, takeRecords.
  set (o1 := mkObserver _ _ _ _ _ []).
  assert (Ho1 : same_engine o o1) by (by repeat split).
  assert (Hobs : same_engine o (observe t o1))
    by (eapply same_engine_trans; [apply Ho1 | apply observe_same]).
  assert (Hin : ∀ t', t' ∈ io_targets (observe t o1) → t' ∈ io_targets o ∨ t' = t)
    by (intros t'; by rewrite elem_of_observe).
  destruct (existsb _ _).
  - pose proof (dom_add_inv t visibleClass dom _ eq_refl) as Hadd.
    destruct (dom_add _ _ _) as [dom' | er' dom']; [| done].
    destruct Hadd as (_ & _ & _ & Hframe & Hgrow & Hother).
    destruct (negb _); intros [= <-]; simpl; rewrite ?observe_queue;
      repeat split; try apply Hobs; try apply Ho1; try apply Hother; auto.
  - intros [= <-]. simpl. rewrite observe_queue.
    repeat split; try apply Hobs; auto.
Qed.

Lemma attachTarget_settled st t :
  let r := settled (attachTarget visibleClass options st t) in
  same_engine st.2 r.2
  ∧ (∀ t', t' ∈ io_targets r.2 → t' ∈ io_targets st.2 ∨ t' = t)
  ∧ (∀ c t', c ∈ st.1 t' → c ∈ r.1 t')
  ∧ (∀ c t', c ≠ visibleClass → c ∈ r.1 t' ↔ c ∈ st.1 t').
Proof.
  destruct (attachTarget visibleClass options st t) as [r | e r] eqn:Ha; simpl.
  - apply attachTarget_Ok in Ha as (H1 & _ & H2 & H3 & H4 & _).
    split; [done |]. split; [done |]. by split.
  - destruct st as [dom o].
    apply attachTarget_Throw in Ha as (_ & Hd & Hts & _ & Hsame).
    simpl. rewrite Hd, Hts. split; [done |]. split; [by left |]. by split.
Qed.

Lemma attach_all_settled ts st :
  let r := settled (forEach (attachTarget visibleClass options) ts st) in
  same_engine st.2 r.2
  ∧ (∀ t', t' ∈ io_targets r.2 → t' ∈ io_targets st.2 ∨ t' ∈ ts)
  ∧ (∀ c t', c ∈ st.1 t' → c ∈ r.1 t')
  ∧ (∀ c t', c ≠ visibleClass → c ∈ r.1 t' ↔ c ∈ st.1 t').
Proof.
  apply (forEach_settled_ind (attachTarget visibleClass options)
           (λ s r : Live,
              same_engine s.2 r.2
              ∧ (∀ t', t' ∈ io_targets r.2 → t' ∈ io_targets s.2 ∨ t' ∈ ts)
              ∧ (∀ c t', c ∈ s.1 t' → c ∈ r.1 t')
              ∧ (∀ c t', c ≠ visibleClass → c ∈ r.1 t' ↔ c ∈ s.1 t'))).
  - intros s. repeat split; try done. intros t'. by left.
  - intros s1 s2 s3 (Ha & Hb & Hc & Hd) (Ha' & Hb' & Hc' & Hd').
    split; [by eapply same_engine_trans |]. split.
    + intros t' Ht'. destruct (Hb' t' Ht') as [Ht | Ht]; [by apply Hb | by right].
    + split; [auto |]. intros c t' Hne. by rewrite Hd', Hd.
  - intros s t Ht. destruct (attachTarget_settled s t) as (Ha & Hb & Hc & Hd).
    repeat split; try apply Ha; try apply Hd; auto.
    intros t' Ht'. destruct (Hb t' Ht') as [? | ->]; [by left | by right].
Qed.

Lemma attach_all_valid ts st :
  token_error visibleClass = None →
  ∃ r, forEach (attachTarget visibleClass options) ts st = Ok r.
Proof.
  intros Htok. apply forEach_total. intros [dom o] t _.
  destruct (attachTarget visibleClass options (dom, o) t) as [r | e r] eqn:Ha;
    [by eexists |].
  apply attachTarget_Throw in Ha as [Hbad _]. congruence.
Qed.

(** On an engine with no record pending the loop marks nothing and
    subscribes every matched target. *)
Lemma attach_all_quiet ts dom o :
  io_queue o = [] →
  ∃ r, forEach (attachTarget visibleClass options) ts (dom, o) = Ok r
       ∧ r.1 = dom
       ∧ io_queue r.2 = []
       ∧ (∀ t, t ∈ io_targets r.2 ↔ t ∈ io_targets o ∨ t ∈ ts).
Proof.
  revert o. induction ts as [| t ts IH]; intros o Hq; cbn [forEach].
  - eexists. repeat split; try done. { by left. }
    intros [? | ?%not_elem_of_nil]; done.
  - rewrite attachTarget_quiet by done.
    destruct (IH (observe t o)) as (r & Hr & Hd & Hq' & Hin);
      [by rewrite observe_queue |].
    exists r. repeat split; try done.
    + rewrite Hin, elem_of_observe, elem_of_cons. tauto.
    + rewrite Hin, elem_of_observe, elem_of_cons. tauto.
Qed.
End Attach.

(** ** The effect *)

Lemma ensureObserver_reuse vc opts s o :
  observerRef s = Some o → ensureObserver vc opts s = Ok (o, s).
Proof. intros Href. unfold ensureObserver. by rewrite Href. Qed.

Lemma ensureObserver_Ok_inv vc opts s o1 s1 :
  ensureObserver vc opts s = Ok (o1, s1) →
  observerRef s1 = Some o1
  ∧ supported s1 = supported s
  ∧ initError s1 = initError s
  ∧ querySelectorAll s1 = querySelectorAll s
  ∧ classes s1 = classes s
  ∧ ((observerRef s = Some o1 ∧ s1 = s)
     ∨ (observerRef s = None ∧ supported s = true
        ∧ initError s (threshold opts) (js_or (rootMargin opts) (JStr "0px")) = None
        ∧ o1 = newObserver vc opts s ∧ constructed s1 = S (constructed s))).
Proof.
  unfold ensureObserver. destruct (observerRef s) as [o |] eqn:Href.
  - intros [= <- <-]. repeat split; try done. by left.
  - destruct (supported s) eqn:Hsup; [| done].
    destruct (initError s _ _) eqn:Hinit; [done |].
    intros [= <- <-]. simpl. repeat split; try done. by right.
Qed.

Lemma effect_Ok_inv sel vc opts s s' ts :
  effect sel vc opts s = Ok (s', ts) →
  ∃ o1 s1 st,
    ensureObserver vc opts s = Ok (o1, s1)
    ∧ querySelectorAll s1 sel = Some ts
    ∧ forEach (attachTarget vc opts) ts (classes s1, o1) = Ok st
    ∧ s' = with_live st s1.
Proof.
  unfold effect, mbind, completion_bind.
  destruct (ensureObserver vc opts s) as [[o1 s1] | e s1]; [| done].
  destruct (querySelectorAll s1 sel) as [ts' |] eqn:Hq; [| done].
  destruct (forEach _ ts' _) as [st | e st] eqn:Hloop; [| done].
  intros [= <- <-]. by exists o1, s1, st.
Qed.

(** Once the engine exists, an evaluation reads nothing of [options] but
    [triggerOnce]. *)
Lemma effect_reuse_options sel vc opts opts' s :
  is_Some (observerRef s) →
  triggerOnce opts = triggerOnce opts' →
  effect sel vc opts s = effect sel vc opts' s.
Proof.
  intros [o Href] Htr. unfold effect.
  rewrite !(ensureObserver_reuse _ _ _ o) by done.
  unfold mbind, completion_bind. destruct (querySelectorAll s sel) as [ts |]; [| done].
  assert (Hloop : ∀ st, forEach (attachTarget vc opts) ts st
                        = forEach (attachTarget vc opts') ts st).
  { induction ts as [| t ts IH]; intros st; [done |].
    cbn [forEach].
    assert (Hone : attachTarget vc opts st t = attachTarget vc opts' st t).
    { destruct st as [dom o1]. unfold attachTarget. by rewrite Htr. }
    rewrite Hone. destruct (attachTarget vc opts' st t); [apply IH | done]. }
  by rewrite Hloop.
Qed.

Lemma effect_classes sel vc opts s s' ts :
  effect sel vc opts s = Ok (s', ts) →
  (∀ c t, c ∈ classes s t → c ∈ classes s' t)
  ∧ (∀ c t, c ≠ vc → c ∈ classes s' t ↔ c ∈ classes s t).
Proof.
  intros Heff.
  apply effect_Ok_inv in Heff as (o1 & s1 & st & Hens & _ & Hloop & ->).
  apply ensureObserver_Ok_inv in Hens as (_ & _ & _ & _ & Hcl1 & _).
  destruct (attach_all_settled vc opts ts (classes s1, o1)) as (_ & _ & Hg & Ho).
  rewrite Hloop in Hg, Ho. simpl in *. rewrite <- Hcl1. by split.
Qed.

Lemma cleanup_spec ts s o :
  observerRef s = Some o →
  cleanup ts s = with_ref (Some (fold_left (λ o t, unobserve t o) ts o)) s.
Proof. intros Href. unfold cleanup. by rewrite Href. Qed.

Lemma cleanup_classes ts s : classes (cleanup ts s) = classes s.
Proof. unfold cleanup. by destruct (observerRef s). Qed.

(** ** The invariant of a mounted instance *)

(** What the first evaluation of an instance leaves. *)
Lemma first_evaluation_spec a s s1 ts :
  useScrollAnimation a (useRef_null s) = Ok (s1, ts) →
  supported s = true
  ∧ initError s (threshold (options_of a))
      (js_or (rootMargin (options_of a)) (JStr "0px")) = None
  ∧ querySelectorAll s (a_targetSelector a) = Some ts
  ∧ supported s1 = supported s
  ∧ initError s1 = initError s
  ∧ querySelectorAll s1 = querySelectorAll s
  ∧ classes s1 = classes s
  ∧ constructed s1 = S (constructed s)
  ∧ ∃ o, observerRef s1 = Some o
         ∧ same_engine (newObserver (visibleClass_of a) (options_of a) s) o
         ∧ io_queue o = []
         ∧ (∀ t, t ∈ io_targets o ↔ t ∈ ts).
Proof.
  unfold useScrollAnimation. intros Heff.
  apply effect_Ok_inv in Heff as (o1 & s0 & st & Hens & Hq & Hloop & ->).
  apply ensureObserver_Ok_inv in Hens
    as (_ & Hsup0 & Hinit0 & Hq0 & Hcl0 & [[Hold _] | (_ & Hsup & Hinit & -> & Hc0)]);
    [done |].
  set (vc := visibleClass_of a) in *. set (opts := options_of a) in *.
  destruct (attach_all_quiet vc opts ts (classes s0) (newObserver vc opts (useRef_null s)))
    as (r & Hr & Hd & Hqr & Hin); [done |].
  rewrite Hr in Hloop. injection Hloop as <-.
  destruct (attach_all_settled vc opts ts (classes s0, newObserver vc opts (useRef_null s)))
    as (Hsame & _).
  rewrite Hr in Hsame. rewrite Hq0 in Hq.
  simpl in *. repeat split; try congruence.
  exists r.2. repeat split; try apply Hsame; try done.
  - intros Ht. apply Hin in Ht as [Ht | Ht]; [by apply not_elem_of_nil in Ht | done].
  - intros Ht. apply Hin. by right.
Qed.

Lemma mount_mounted a s0 ss0 :
  mount a s0 = Ok ss0 →
  mounted (newObserver (visibleClass_of a) (options_of a) s0) (S (constructed s0)) ss0.
Proof.
  unfold mount, mbind, completion_bind.
  destruct (useScrollAnimation _ _) as [[s' ts] | e s'] eqn:Heff; [| done].
  intros [= <-].
  apply first_evaluation_spec in Heff
    as (_ & _ & _ & _ & _ & _ & _ & Hc & o & Href & Hsame & _ & Hin).
  exists o. simpl. repeat split; try done; try apply Hsame. intros t. apply Hin.
Qed.

Lemma reevaluate_mounted o0 n a ss ss' :
  mounted o0 n ss → reevaluate a ss = Ok ss' → mounted o0 n ss'.
Proof.
  intros (o & Href & Hsame & Hn & Hsub).
  unfold reevaluate, useScrollAnimation, mbind, completion_bind.
  destruct (effect _ _ _ _) as [[s' ts] | e s'] eqn:Heff; [| done].
  intros [= <-].
  rewrite (cleanup_spec _ _ _ Href) in Heff.
  destruct (release_all_spec (s_targets ss) o) as (Hsame' & Hrel & _).
  apply effect_Ok_inv in Heff as (o1 & s1 & st & Hens & Hq & Hloop & ->).
  rewrite (ensureObserver_reuse _ _ _ (fold_left (λ o t, unobserve t o) (s_targets ss) o))
    in Hens by done.
  injection Hens as <- <-.
  destruct (attach_all_settled (visibleClass_of a) (options_of a) ts
              (classes (s_state ss),
               fold_left (λ o t, unobserve t o) (s_targets ss) o))
    as (Hsame1 & Hin & _).
  simpl in Hloop. rewrite Hloop in Hsame1, Hin. simpl in Hsame1, Hin.
  exists st.2. simpl. split; [done |].
  split; [eapply same_engine_trans; [apply Hsame |];
          eapply same_engine_trans; [apply Hsame' | apply Hsame1] |].
  split; [done |].
  intros t Ht. destruct (Hin t Ht) as [Hold | Hts]; [| done].
  apply Hrel in Hold as [Hobs Hnot]. by apply Hsub in Hobs.
Qed.

Lemma notify_spec s o :
  observerRef s = Some o →
  supported (notify s) = supported s
  ∧ initError (notify s) = initError s
  ∧ querySelectorAll (notify s) = querySelectorAll s
  ∧ constructed (notify s) = constructed s
  ∧ ∃ o', observerRef (notify s) = Some o'
          ∧ same_engine o o'
          ∧ (∀ t, t ∈ io_targets o' → t ∈ io_targets o)
          ∧ io_queue o' = [].
Proof.
  intros Href. unfold notify. rewrite Href.
  destruct (io_queue o) as [| e q] eqn:Hq.
  - repeat split; try done. exists o. split; [done |].
    split; [apply same_engine_refl | done].
  - unfold takeRecords. rewrite Hq.
    set (o1 := mkObserver _ _ _ _ _ []).
    destruct (intersectionCallback_settled (io_callback o1) (e :: q) (classes s, o1))
      as (_ & _ & Hsub & Hsame & Hqueue).
    simpl. repeat split; try done. eexists. split; [done |].
    split; [eapply same_engine_trans; [| apply Hsame]; by repeat split |].
    split; [apply Hsub | apply Hqueue].
Qed.

Lemma host_step_mounted o0 n ss h :
  mounted o0 n ss →
  mounted o0 n (mkSession (host_step (s_state ss) h) (s_targets ss)).
Proof.
  intros (o & Href & Hsame & Hn & Hsub). destruct h as [es | | q]; simpl.
  - exists (queueEntries es o). simpl. rewrite Href. simpl.
    repeat split; try done; try apply Hsame.
  - destruct (notify_spec _ _ Href) as (_ & _ & _ & Hc & o' & Href' & Hs & Hin & _).
    exists o'. simpl. split; [done |].
    split; [by eapply same_engine_trans |]. split; [congruence |]. auto.
  - exists o. by repeat split; try apply Hsame.
Qed.

Lemma run_mounted o0 n evs ss ss' :
  mounted o0 n ss → run evs ss = Ok ss' → mounted o0 n ss'.
Proof.
  revert ss. induction evs as [| ev evs IH]; intros ss Hinv; simpl.
  - by intros [= <-].
  - unfold mbind, completion_bind.
    destruct (step ev ss) as [ss1 | e s1] eqn:Hstep; [| done].
    apply IH. destruct ev as [h | a]; simpl in Hstep.
    + injection Hstep as <-. by apply host_step_mounted.
    + by eapply reevaluate_mounted.
Qed.

(** X2: the callback in force is the one the first evaluation built: it closes
    over the marker and the options of that evaluation. *)
Lemma callback_is_the_first_one a s0 ss0 evs ss :
  mount a s0 = Ok ss0 →
  run evs ss0 = Ok ss →
  ∃ o, observerRef (s_state ss) = Some o
       ∧ io_callback o = mkCallback (visibleClass_of a) (options_of a).
Proof.
  intros Hmount Hrun.
  apply mount_mounted in Hmount as Hinv.
  pose proof (run_mounted _ _ _ _ _ Hinv Hrun) as (o & Href & Hsame & _).
  destruct Hsame as (_ & Hcb & _). by exists o.
Qed.

(** ** After the teardown *)

Lemma unmount_spec o0 n ss :
  mounted o0 n ss →
  ∃ o o', observerRef (s_state ss) = Some o
          ∧ observerRef (unmount ss) = Some o'
          ∧ same_engine o o'
          ∧ io_targets o' = []
          ∧ io_queue o' = io_queue o
          ∧ classes (unmount ss) = classes (s_state ss).
Proof.
  intros (o & Href & _ & _ & Hsub). unfold unmount.
  rewrite (cleanup_spec _ _ _ Href).
  destruct (release_all_spec (s_targets ss) o) as (Hsame & Hrel & Hq).
  exists o. eexists. split; [done |]. split; [done |]. split; [done |].
  split; [| by split].
  apply elem_of_nil_inv. intros t Ht. apply Hrel in Ht as [Hobs Hnot].
  by apply Hnot, Hsub.
Qed.

(** What a delivery does depends on the class lists and on the engine of the
    ref alone. *)
Lemma notify_ext s1 s2 :
  classes s1 = classes s2 →
  observerRef s1 = observerRef s2 →
  classes (notify s1) = classes (notify s2)
  ∧ observerRef (notify s1) = observerRef (notify s2).
Proof.
  intros Hcl Href. unfold notify. rewrite Href.
  destruct (observerRef s2) as [o |] eqn:Href2; [| split; congruence].
  destruct (io_queue o); [split; congruence |].
  unfold takeRecords. simpl. by rewrite Hcl.
Qed.

Lemma notify_empty s o :
  observerRef s = Some o → io_queue o = [] → notify s = s.
Proof. intros Href Hq. unfold notify. by rewrite Href, Hq. Qed.

(** An engine that observes nothing queues nothing. *)
Lemma queueEntries_idle es o : io_targets o = [] → queueEntries es o = o.
Proof.
  intros Hts. destruct o as [i cb th rm ts q]. simpl in Hts. subst ts.
  unfold queueEntries. simpl. f_equal.
  assert (Hnone : filter (λ e : Entry, target e ∈ []) es = []).
  { induction es as [| e es IH]; [done |].
    rewrite filter_cons_False; [done |]. apply not_elem_of_nil. }
  rewrite Hnone. apply app_nil_r.
Qed.

(** After the teardown the host can still deliver what was pending, once;
    nothing else it does reaches the class lists or the subscriptions. *)
Lemma idle_host_run hs s o :
  observerRef s = Some o →
  io_targets o = [] →
  classes (host_run hs s) = classes (if delivers hs then notify s else s)
  ∧ ∃ o', observerRef (host_run hs s) = Some o' ∧ io_targets o' = [].
Proof.
  unfold host_run. revert s o.
  induction hs as [| h hs IH]; intros s o Href Hts; simpl.
  - split; [done |]. by exists o.
  - destruct h as [es | | q]; simpl.
    + rewrite Href. simpl. rewrite (queueEntries_idle es o Hts).
      destruct (IH (with_ref (Some o) s) o eq_refl Hts) as [Hcl Hidle].
      split; [| done]. rewrite Hcl.
      destruct (delivers hs); [| done].
      by apply (notify_ext (with_ref (Some o) s) s).
    + destruct (notify_spec s o Href) as (_ & _ & _ & _ & o' & Href' & _ & Hsub & Hq).
      assert (Hts' : io_targets o' = []).
      { apply elem_of_nil_inv. intros t Ht. apply Hsub in Ht. rewrite Hts in Ht.
        by apply not_elem_of_nil in Ht. }
      destruct (IH (notify s) o' Href' Hts') as [Hcl Hidle].
      split; [| done]. rewrite Hcl.
      rewrite (notify_empty (notify s) o' Href' Hq). by destruct (delivers hs).
    + set (s1 := mkState _ _ q _ _ _).
      destruct (IH s1 o Href Hts) as [Hcl Hidle].
      split; [| done]. rewrite Hcl.
      destruct (delivers hs); [| done].
      by apply (notify_ext s1 s).
Qed.

(** The cleanup leaves the queue of the engine alone: a report that was
    queued before the teardown and not delivered yet is still delivered
    after it, and the callback marks the element although nothing is
    observed any more. *)
Lemma pending_record_is_delivered_after_teardown :
  observed (unmount pending_session) = []
  ∧ classes (unmount pending_session) elA = []
  ∧ classes (host_run [HNotify] (unmount pending_session)) elA = ["is-visible"].
Proof. repeat split; vm_compute; reflexivity. Qed.

(** C5 (amended): when the cleanup of a mounted instance has run, whatever
    the session went through before, the engine of the session observes no
    target at all (so every target attached during the session is released
    and no subscription is left); the cleanup touches neither the class
    lists nor the queue of the engine.  From then on nothing gets observed
    again, and whatever the host does afterwards (new intersection reports,
    changes of the document) has no effect on any class list: the class
    lists only change by the one delivery of the records that were already
    queued at the teardown, and not at all if none was. *)
Theorem teardown_releases_every_target a s0 ss0 evs ss hs :
  mount a s0 = Ok ss0 →
  run evs ss0 = Ok ss →
  ∃ o o', observerRef (s_state ss) = Some o
          ∧ observerRef (unmount ss) = Some o'
          ∧ same_engine o o'
          ∧ io_targets o' = []
          ∧ io_queue o' = io_queue o
          ∧ classes (unmount ss) = classes (s_state ss)
          ∧ (∀ t, t ∉ observed (host_run hs (unmount ss)))
          ∧ classes (host_run hs (unmount ss))
            = classes (if delivers hs then notify (unmount ss) else unmount ss)
          ∧ (io_queue o = [] →
             classes (host_run hs (unmount ss)) = classes (s_state ss)).
Proof.
  intros Hmount Hrun.
  apply mount_mounted in Hmount as Hinv.
  pose proof (run_mounted _ _ _ _ _ Hinv Hrun) as Hinv'.
  destruct (unmount_spec _ _ _ Hinv') as (o & o' & Href & Href' & Hsame & Hts & Hq & Hcl).
  destruct (idle_host_run hs _ _ Href' Hts) as [Hrun' (o'' & Href'' & Hts'')].
  exists o, o'. repeat split; try done; try apply Hsame.
  - intros t. unfold observed. rewrite Href'', Hts''. apply not_elem_of_nil.
  - intros Hempty. rewrite Hrun'.
    rewrite (notify_empty _ o' Href') by congruence.
    by destruct (delivers hs).
Qed.

Lemma teardown_releases_every_target_witness :
  let ss0 := completed (mount once_half (page true)) in
  let evs := [EHost (HQueue [mkEntry elA true; mkEntry elB false]); EHost HNotify;
              ERender once_half; EHost (HQueue [mkEntry elB true])] in
  let ss := completed (run evs ss0) in
  let hs := [HQueue [mkEntry elA false; mkEntry elB true]; HNotify;
             HQueue [mkEntry elB false]; HNotify] in
  ∃ o o', observerRef (s_state ss) = Some o
          ∧ observerRef (unmount ss) = Some o'
          ∧ same_engine o o'
          ∧ io_targets o' = []
          ∧ io_queue o' = io_queue o
          ∧ classes (unmount ss) = classes (s_state ss)
          ∧ (∀ t, t ∉ observed (host_run hs (unmount ss)))
          ∧ classes (host_run hs (unmount ss))
            = classes (if delivers hs then notify (unmount ss) else unmount ss)
          ∧ (io_queue o = [] →
             classes (host_run hs (unmount ss)) = classes (s_state ss)).
Proof.
  intros ss0 evs ss hs.
  apply (teardown_releases_every_target once_half (page true) ss0 evs ss hs);
    vm_compute; reflexivity.
Defined.

(** ** The engine of a session *)

(** C6: the hook instance starts with an empty ref; the first evaluation
    constructs the engine; every later evaluation of the session finds that
    same instance in the ref, and no other observer is ever constructed. *)
Theorem engine_is_created_once_and_reused a s0 ss0 evs ss :
  mount a s0 = Ok ss0 →
  run evs ss0 = Ok ss →
  observerRef (useRef_null s0) = None
  ∧ ∃ o0 o,
      observerRef (s_state ss0) = Some o0
      ∧ io_id o0 = constructed s0
      ∧ constructed (s_state ss0) = S (constructed s0)
      ∧ observerRef (s_state ss) = Some o
      ∧ io_id o = io_id o0
      ∧ constructed (s_state ss) = constructed (s_state ss0).
Proof.
  intros Hmount Hrun. split; [done |].
  apply mount_mounted in Hmount as Hinv.
  pose proof (run_mounted _ _ _ _ _ Hinv Hrun) as Hinv'.
  destruct Hinv as (o0 & Href0 & (Hid0 & _) & Hc0 & _).
  destruct Hinv' as (o & Href & (Hid & _) & Hc & _).
  exists o0, o. simpl in Hid0, Hid. repeat split; try done; congruence.
Qed.

Lemma engine_is_created_once_and_reused_witness :
  let ss0 := completed (mount once_half (page true)) in
  let evs := [EHost (HQueue [mkEntry elA true]); ERender only_threshold;
              EHost HNotify; ERender all_defaults] in
  let ss := completed (run evs ss0) in
  observerRef (useRef_null (page true)) = None
  ∧ ∃ o0 o,
      observerRef (s_state ss0) = Some o0
      ∧ io_id o0 = constructed (page true)
      ∧ constructed (s_state ss0) = S (constructed (page true))
      ∧ observerRef (s_state ss) = Some o
      ∧ io_id o = io_id o0
      ∧ constructed (s_state ss) = constructed (s_state ss0).
Proof.
  intros ss0 evs ss.
  apply (engine_is_created_once_and_reused once_half (page true) ss0 evs ss);
    vm_compute; reflexivity.
Defined.

(** C9: all along a session the engine keeps the [threshold] and the
    [rootMargin] that the options of the first evaluation gave it; a
    re-evaluation reads neither field of its options: two option objects
    that agree on [triggerOnce] give the same evaluation. *)
Theorem engine_configuration_is_fixed a s0 ss0 evs ss :
  mount a s0 = Ok ss0 →
  run evs ss0 = Ok ss →
  (∃ o, observerRef (s_state ss) = Some o
        ∧ io_threshold o = threshold (options_of a)
        ∧ io_rootMargin o = js_or (rootMargin (options_of a)) (JStr "0px"))
  ∧ (∀ sel vc tr th rm th' rm',
       reevaluate (mkArgs sel vc (Some (mkOptions th tr rm))) ss
       = reevaluate (mkArgs sel vc (Some (mkOptions th' tr rm'))) ss).
Proof.
  intros Hmount Hrun.
  apply mount_mounted in Hmount as Hinv.
  pose proof (run_mounted _ _ _ _ _ Hinv Hrun) as (o & Href & Hsame & _).
  destruct Hsame as (_ & _ & Hth & Hrm). split.
  - exists o. by repeat split.
  - intros sel vc tr th rm th' rm'. unfold reevaluate, useScrollAnimation. simpl.
    rewrite (effect_reuse_options sel (visibleClass_of (mkArgs sel vc _))
               (mkOptions th tr rm) (mkOptions th' tr rm')); [done | | done].
    by rewrite (cleanup_spec _ _ _ Href).
Qed.

Lemma engine_configuration_is_fixed_witness :
  let ss0 := completed (mount once_half (page true)) in
  let evs := [ERender (mkArgs ".x" None
                (Some (mkOptions (JNum (9 # 10)) (JBool true) (JStr "20px"))))] in
  let ss := completed (run evs ss0) in
  (∃ o, observerRef (s_state ss) = Some o
        ∧ io_threshold o = threshold (options_of once_half)
        ∧ io_rootMargin o = js_or (rootMargin (options_of once_half)) (JStr "0px"))
  ∧ (∀ sel vc tr th rm th' rm',
       reevaluate (mkArgs sel vc (Some (mkOptions th tr rm))) ss
       = reevaluate (mkArgs sel vc (Some (mkOptions th' tr rm'))) ss).
Proof.
  intros ss0 evs ss.
  apply (engine_configuration_is_fixed once_half (page true) ss0 evs ss);
    vm_compute; reflexivity.
Defined.

(** C8: on a host that does not define [IntersectionObserver], the first
    evaluation throws a [ReferenceError] where it constructs the engine:
    nothing was queried, marked or subscribed before. *)
Theorem missing_capability_fails_fast a s :
  supported s = false →
  mount a s = Throw ReferenceError (useRef_null s).
Proof.
  intros Hsup. unfold mount, useScrollAnimation, effect, ensureObserver. simpl.
  by rewrite Hsup.
Qed.

Lemma missing_capability_fails_fast_witness :
  mount once_half (page false) = Throw ReferenceError (useRef_null (page false)).
Proof. apply (missing_capability_fails_fast once_half (page false)). reflexivity. Defined.

(** ** A selector that matches nothing *)

(** A selector with no match does not, by itself, keep the evaluation from
    throwing: the engine is constructed before the document is queried, on
    a host that may not define the constructor, from options that the
    constructor may not take. *)
Lemma zero_targets_may_throw :
  querySelectorAll (page false) (a_targetSelector (mkArgs ".none" None None)) = Some []
  ∧ useScrollAnimation (mkArgs ".none" None None) (page false)
    = Throw ReferenceError (page false)
  ∧ useScrollAnimation
      (mkArgs ".none" None (Some (mkOptions (JNum 2) (JBool true) JUndefined)))
      (page true)
    = Throw RangeError (page true).
Proof. repeat split; reflexivity. Qed.

(** C7 (amended): where the engine exists already, or the host defines the
    constructor and takes the threshold and the root margin of the call, an
    evaluation whose selector matches no element completes without an
    exception, leaves every class list as it is and subscribes nothing; it
    is a no-op on the state once the engine exists, and the first
    evaluation does nothing but construct the engine. *)
Theorem zero_targets_is_silent a s :
  querySelectorAll s (a_targetSelector a) = Some [] →
  is_Some (observerRef s)
  ∨ (supported s = true
     ∧ initError s (threshold (options_of a))
         (js_or (rootMargin (options_of a)) (JStr "0px")) = None) →
  ∃ s', useScrollAnimation a s = Ok (s', [])
        ∧ classes s' = classes s
        ∧ observed s' = observed s
        ∧ (is_Some (observerRef s) → s' = s)
        ∧ (observerRef s = None →
           s' = mkState (supported s) (initError s) (querySelectorAll s) (classes s)
                  (S (constructed s))
                  (Some (newObserver (visibleClass_of a) (options_of a) s))).
Proof.
  intros Hq Havail. unfold useScrollAnimation, effect, ensureObserver, observed.
  destruct (observerRef s) as [o |] eqn:Href.
  - unfold mbind, completion_bind. rewrite Hq. simpl. eexists. split; [done |].
    unfold with_live. simpl. repeat split; try done.
    intros _. destruct s; simpl in *; by subst.
  - destruct Havail as [[o Ho] | [Hsup Hinit]]; [done |].
    rewrite Hsup, Hinit. unfold mbind, completion_bind. simpl. rewrite Hq. simpl.
    eexists. split; [done |]. repeat split; try done.
Qed.

Lemma zero_targets_is_silent_witness :
  ∃ s', useScrollAnimation (mkArgs ".none" None None) (page true) = Ok (s', [])
        ∧ classes s' = classes (page true)
        ∧ observed s' = observed (page true)
        ∧ (is_Some (observerRef (page true)) → s' = page true)
        ∧ (observerRef (page true) = None →
           s' = mkState (supported (page true)) (initError (page true))
                  (querySelectorAll (page true)) (classes (page true))
                  (S (constructed (page true)))
                  (Some (newObserver (visibleClass_of (mkArgs ".none" None None))
                           (options_of (mkArgs ".none" None None)) (page true)))).
Proof.
  apply (zero_targets_is_silent (mkArgs ".none" None None) (page true)).
  - reflexivity.
  - right. split; reflexivity.
Defined.

(** ** What the first evaluation does with visible targets *)

(** X1: a new engine has no record to take: the first evaluation marks nothing
    and subscribes every matched target, whatever is on screen and whatever
    [triggerOnce] says. *)
Lemma first_evaluation_marks_nothing sel vc opts s s' ts :
  observerRef s = None →
  effect sel vc opts s = Ok (s', ts) →
  classes s' = classes s ∧ (∀ t, t ∈ observed s' ↔ t ∈ ts).
Proof.
  intros Href Heff.
  apply effect_Ok_inv in Heff as (o1 & s1 & st & Hens & _ & Hloop & ->).
  apply ensureObserver_Ok_inv in Hens as (_ & _ & _ & _ & Hcl1 & [[Hold _] | Hnew]);
    [congruence |].
  destruct Hnew as (_ & _ & _ & -> & _).
  destruct (attach_all_quiet vc opts ts (classes s1) (newObserver vc opts s))
    as (r & Hr & Hd & _ & Hin); [done |].
  rewrite Hr in Hloop. injection Hloop as <-.
  split; [simpl; congruence |].
  intros t. unfold observed. simpl. rewrite Hin. simpl.
  rewrite elem_of_nil. tauto.
Qed.

(** C1: the call of the scenario, [{threshold: 0.5, triggerOnce: true}] on
    two elements of which the first is on screen.  The activation marks
    neither element and subscribes both; the first element gets the marker
    only when the engine delivers its first report; and a re-evaluation
    subscribes the element again although it is marked and on screen. *)
Example visible_target_waits_for_its_first_report :
  outcome (mount once_half (page true)) = Some ([], [], [elA; elB])
  ∧ outcome (ss ← mount once_half (page true);
             run [EHost (HQueue [mkEntry elA true; mkEntry elB false]);
                  EHost HNotify] ss)
    = Some (["is-visible"], [], [elB])
  ∧ outcome (ss ← mount once_half (page true);
             run [EHost (HQueue [mkEntry elA true; mkEntry elB false]);
                  EHost HNotify;
                  ERender once_half] ss)
    = Some (["is-visible"], [], [elA; elB]).
Proof. repeat split; vm_compute; reflexivity. Qed.

(** ** Defaults *)

(** With the options argument left out, the defaults of the parameter list
    apply; a missing or empty [rootMargin] always reads as ["0px"]. *)
Lemma defaults_of_an_omitted_argument :
  engine_init (mount all_defaults (page true))
  = Some ("is-visible", JBool true, JNum (1 # 10), JStr "0px").
Proof. vm_compute. reflexivity. Qed.

Lemma rootMargin_defaults_by_field vc opts s :
  truthy (rootMargin opts) = false →
  io_rootMargin (newObserver vc opts s) = JStr "0px".
Proof. intros Hrm. unfold newObserver, js_or. simpl. by rewrite Hrm. Qed.

(** C2: an options object that gives [threshold] only leaves [triggerOnce]
    undefined, which the callback reads as false: the marked element stays
    subscribed and loses the marker when it leaves.  An options object that
    gives [triggerOnce] only hands an undefined [threshold] to the engine. *)
Example partial_options_get_no_defaults :
  engine_init (mount only_threshold (page true))
  = Some ("is-visible", JUndefined, JNum (1 # 2), JStr "0px")
  ∧ outcome (ss ← mount only_threshold (page true);
             run [EHost (HQueue [mkEntry elA true]); EHost HNotify] ss)
    = Some (["is-visible"], [], [elA; elB])
  ∧ outcome (ss ← mount only_threshold (page true);
             run [EHost (HQueue [mkEntry elA true]); EHost HNotify;
                  EHost (HQueue [mkEntry elA false]); EHost HNotify] ss)
    = Some ([], [], [elA; elB])
  ∧ engine_init (mount only_triggerOnce (page true))
    = Some ("is-visible", JBool true, JUndefined, JStr "0px").
Proof. repeat split; vm_compute; reflexivity. Qed.

(** * Further properties of the hook *)

(** ** Which classes the hook touches *)

Lemma notify_classes s o :
  observerRef s = Some o →
  (∀ c t, c ≠ cb_visibleClass (io_callback o) →
          c ∈ classes (notify s) t ↔ c ∈ classes s t)
  ∧ (truthy (triggerOnce (cb_options (io_callback o))) = true →
     ∀ c t, c ∈ classes s t → c ∈ classes (notify s) t).
Proof.
  intros Href. unfold notify. rewrite Href.
  destruct (io_queue o) as [| e q] eqn:Hq; [done |].
  unfold takeRecords. rewrite Hq.
  set (o1 := mkObserver _ _ _ _ _ []). simpl. split.
  - intros c t Hne.
    by apply (intersectionCallback_settled (io_callback o) (e :: q) (classes s, o1)).
  - intros Honce c t Hin.
    by apply (intersectionCallback_once_settled (io_callback o) Honce (e :: q)
                (classes s, o1)).
Qed.

Lemma step_classes o0 n ev ss ss' :
  mounted o0 n ss →
  step ev ss = Ok ss' →
  (truthy (triggerOnce (cb_options (io_callback o0))) = true →
   ∀ c t, c ∈ classes (s_state ss) t → c ∈ classes (s_state ss') t)
  ∧ (∀ c t, c ≠ cb_visibleClass (io_callback o0) → c ∉ markers_of [ev] →
            c ∈ classes (s_state ss') t ↔ c ∈ classes (s_state ss) t).
Proof.
  intros (o & Href & (_ & Hcb & _) & _) Hstep.
  destruct ev as [[es | | q] | a]; simpl in Hstep.
  - injection Hstep as <-. by split.
  - injection Hstep as <-. simpl.
    destruct (notify_classes _ _ Href) as [Hother Hgrow].
    rewrite Hcb in Hother, Hgrow. split; [done |].
    intros c t Hne _. by apply Hother.
  - injection Hstep as <-. by split.
  - unfold reevaluate, useScrollAnimation, mbind, completion_bind in Hstep.
    destruct (effect _ _ _ _) as [[s' ts] | e s'] eqn:Heff; [| done].
    injection Hstep as <-. simpl.
    apply effect_classes in Heff as [Hgrow Hother].
    rewrite cleanup_classes in Hgrow, Hother. split; [by intros _ |].
    intros c t _ Hnot. apply Hother. intros ->. apply Hnot. simpl. by left.
Qed.

Lemma run_classes o0 n evs ss ss' :
  mounted o0 n ss →
  run evs ss = Ok ss' →
  (truthy (triggerOnce (cb_options (io_callback o0))) = true →
   ∀ c t, c ∈ classes (s_state ss) t → c ∈ classes (s_state ss') t)
  ∧ (∀ c t, c ≠ cb_visibleClass (io_callback o0) → c ∉ markers_of evs →
            c ∈ classes (s_state ss') t ↔ c ∈ classes (s_state ss) t).
Proof.
  revert ss. induction evs as [| ev evs IH]; intros ss Hinv; simpl.
  - intros [= <-]. by split.
  - unfold mbind, completion_bind.
    destruct (step ev ss) as [ss1 | e s1] eqn:Hstep; [| done]. intros Hrun.
    assert (Hinv1 : mounted o0 n ss1).
    { apply (run_mounted o0 n [ev] ss); [done |]. simpl.
      unfold mbind, completion_bind. by rewrite Hstep. }
    destruct (step_classes _ _ _ _ _ Hinv Hstep) as [Hg1 Ho1].
    destruct (IH _ Hinv1 Hrun) as [Hg Ho]. split.
    + intros Honce c t Hin. by apply Hg, Hg1.
    + intros c t Hne Hnot. rewrite Ho; [apply Ho1; [done |] | done |].
      * intros Hin. apply Hnot. unfold markers_of in *. simpl in *.
        destruct ev as [h | a]; [by apply not_elem_of_nil in Hin |].
        apply list_elem_of_singleton in Hin. rewrite Hin. by left.
      * intros Hin. apply Hnot. unfold markers_of in *. simpl.
        destruct ev as [h | a]; [done | by right].
Qed.

Lemma mount_classes a s0 ss0 :
  mount a s0 = Ok ss0 → classes (s_state ss0) = classes s0.
Proof.
  unfold mount, mbind, completion_bind.
  destruct (useScrollAnimation _ _) as [[s' ts] | e s'] eqn:Heff; [| done].
  intros [= <-]. simpl.
  by apply first_evaluation_spec in Heff as (_ & _ & _ & _ & _ & _ & Hcl & _).
Qed.



(** X8: along a session the hook changes the membership of no class but the
    markers it was called with: the marker of the first evaluation (the one
    the callback uses) and those of the re-evaluations. *)
Theorem only_the_markers_are_touched a s0 ss0 evs ss c t :
  mount a s0 = Ok ss0 →
  run evs ss0 = Ok ss →
  c ∉ visibleClass_of a :: markers_of evs →
  c ∈ classes (s_state ss) t ↔ c ∈ classes s0 t.
Proof.
  intros Hmount Hrun Hnot.
  apply not_elem_of_cons in Hnot as [Hne Hnot].
  pose proof (mount_mounted _ _ _ Hmount) as Hinv.
  destruct (run_classes _ _ _ _ _ Hinv Hrun) as [_ Hother].
  rewrite Hother by done. by rewrite (mount_classes _ _ _ Hmount).
Qed.

Lemma only_the_markers_are_touched_witness :
  let a := mkArgs ".animate-fade-in" None
             (Some (mkOptions JUndefined (JBool false) JUndefined)) in
  let evs := [EHost (HQueue [mkEntry 4 true]); EHost HNotify;
              ERender (mkArgs ".animate-fade-in" (Some "seen") None);
              EHost (HQueue [mkEntry 4 false]); EHost HNotify] in
  let ss := completed (run evs (completed (mount a App_page))) in
  "animate-fade-in" ∈ classes (s_state ss) 4
  ↔ "animate-fade-in" ∈ classes App_page 4.
Proof.
  intros a evs ss.
  apply (only_the_markers_are_touched a App_page
           (completed (mount a App_page)) evs ss "animate-fade-in" 4).
  - vm_compute. reflexivity.
  - vm_compute. reflexivity.
  - vm_compute. intros Hin.
    repeat (apply elem_of_cons in Hin as [Hin | Hin]; [discriminate |]).
    by apply not_elem_of_nil in Hin.
Defined.

(** ** The first evaluation and the closure it leaves behind *)

Lemma first_evaluation_marks_nothing_witness :
  let r := match effect ".x" "is-visible" default_options (page true) with
           | Ok p => p
           | Throw _ s => (s, [])
           end in
  classes r.1 = classes (page true) ∧ (∀ t, t ∈ observed r.1 ↔ t ∈ r.2).
Proof.
  intros r.
  apply (first_evaluation_marks_nothing ".x" "is-visible" default_options (page true) r.1 r.2).
  - reflexivity.
  - vm_compute. reflexivity.
Defined.

Lemma callback_is_the_first_one_witness :
  let evs := [ERender (mkArgs ".x" (Some "seen")
                         (Some (mkOptions (JNum 1) (JBool false) (JStr "10px"))));
              EHost (HQueue [mkEntry elA true]); EHost HNotify] in
  let ss := completed (run evs (completed (mount once_half (page true)))) in
  ∃ o, observerRef (s_state ss) = Some o
       ∧ io_callback o = mkCallback (visibleClass_of once_half) (options_of once_half).
Proof.
  intros evs ss.
  apply (callback_is_the_first_one once_half (page true)
           (completed (mount once_half (page true))) evs ss);
    vm_compute; reflexivity.
Defined.

(** X3: with both optional arguments left out, the engine of the session has
    the callback of the defaults (marker ["is-visible"], one-shot), the
    threshold 0.1 and the root margin ["0px"], for as long as the session
    lasts. *)
Theorem omitted_arguments_get_the_defaults sel s0 ss0 evs ss :
  mount (mkArgs sel None None) s0 = Ok ss0 →
  run evs ss0 = Ok ss →
  ∃ o, observerRef (s_state ss) = Some o
       ∧ cb_visibleClass (io_callback o) = "is-visible"
       ∧ triggerOnce (cb_options (io_callback o)) = JBool true
       ∧ io_threshold o = JNum (1 # 10)
       ∧ io_rootMargin o = JStr "0px".
Proof.
  intros Hmount Hrun.
  apply mount_mounted in Hmount as Hinv.
  pose proof (run_mounted _ _ _ _ _ Hinv Hrun) as (o & Href & Hsame & _).
  destruct Hsame as (_ & Hcb & Hth & Hrm).
  exists o. rewrite Hcb, Hth, Hrm. by repeat split.
Qed.

Lemma omitted_arguments_get_the_defaults_witness :
  let evs := [EHost (HQueue [mkEntry elB true]); EHost HNotify; ERender only_threshold] in
  let ss := completed (run evs (completed (mount (mkArgs ".x" None None) (page true)))) in
  ∃ o, observerRef (s_state ss) = Some o
       ∧ cb_visibleClass (io_callback o) = "is-visible"
       ∧ triggerOnce (cb_options (io_callback o)) = JBool true
       ∧ io_threshold o = JNum (1 # 10)
       ∧ io_rootMargin o = JStr "0px".
Proof.
  intros evs ss.
  apply (omitted_arguments_get_the_defaults ".x" (page true)
           (completed (mount (mkArgs ".x" None None) (page true))) evs ss);
    vm_compute; reflexivity.
Defined.

(** ** Exceptions *)

(** X4: the first evaluation completes exactly when the host defines the
    constructor, the constructor takes the threshold and the root margin of
    the call, and the selector parses. *)
Theorem mount_completes_iff a s :
  (∃ ss, mount a s = Ok ss)
  ↔ supported s = true
    ∧ initError s (threshold (options_of a))
        (js_or (rootMargin (options_of a)) (JStr "0px")) = None
    ∧ is_Some (querySelectorAll s (a_targetSelector a)).
Proof.
  split.
  - intros [ss Hmount]. unfold mount, mbind, completion_bind in Hmount.
    destruct (useScrollAnimation _ _) as [[s' ts] | e s'] eqn:Heff; [| done].
    apply first_evaluation_spec in Heff as (Hsup & Hinit & Hq & _).
    by rewrite Hq.
  - intros (Hsup & Hinit & [ts Hq]).
    unfold mount, useScrollAnimation, effect, ensureObserver, mbind, completion_bind.
    simpl. rewrite Hsup, Hinit. simpl. rewrite Hq.
    destruct (attach_all_quiet (visibleClass_of a) (options_of a) ts (classes s)
                (newObserver (visibleClass_of a) (options_of a) (useRef_null s)))
      as (r & Hr & _); [done |].
    simpl in Hr. rewrite Hr. by eexists.
Qed.

(** X5: where the host takes the options, a selector that does not parse
    makes the first evaluation throw a [SyntaxError] after the engine was
    constructed and stored in the ref: the engine is there, it observes
    nothing, and no class list changed. *)
Theorem malformed_selector_at_mount a s :
  supported s = true →
  initError s (threshold (options_of a))
    (js_or (rootMargin (options_of a)) (JStr "0px")) = None →
  querySelectorAll s (a_targetSelector a) = None →
  ∃ s1, mount a s = Throw SyntaxError s1
        ∧ observerRef s1 = Some (newObserver (visibleClass_of a) (options_of a) s)
        ∧ constructed s1 = S (constructed s)
        ∧ classes s1 = classes s
        ∧ observed s1 = [].
Proof.
  intros Hsup Hinit Hq.
  unfold mount, useScrollAnimation, effect, ensureObserver, mbind, completion_bind.
  simpl. rewrite Hsup, Hinit. simpl. rewrite Hq. eexists. split; [done |]. done.
Qed.

Lemma malformed_selector_at_mount_witness :
  ∃ s1, mount (mkArgs EmptyString None None) (page true) = Throw SyntaxError s1
        ∧ observerRef s1
          = Some (newObserver (visibleClass_of (mkArgs EmptyString None None))
                    (options_of (mkArgs EmptyString None None)) (page true))
        ∧ constructed s1 = S (constructed (page true))
        ∧ classes s1 = classes (page true)
        ∧ observed s1 = [].
Proof.
  apply (malformed_selector_at_mount (mkArgs EmptyString None None) (page true));
    reflexivity.
Defined.

(** X6: in a mounted session the constructor is not called again, so a
    re-evaluation completes whenever its selector parses and its marker is
    a token that [classList] takes.  When the selector does not parse, the
    cleanup has run by then: the [SyntaxError] leaves the instance in the
    state of an unmount, observing nothing, with the class lists as they
    were. *)
Theorem reevaluation_fails_on_the_selector_only a0 s0 ss0 evs ss a :
  mount a0 s0 = Ok ss0 →
  run evs ss0 = Ok ss →
  (token_error (visibleClass_of a) = None →
   is_Some (querySelectorAll (s_state ss) (a_targetSelector a)) →
   ∃ ss', reevaluate a ss = Ok ss')
  ∧ (querySelectorAll (s_state ss) (a_targetSelector a) = None →
     reevaluate a ss = Throw SyntaxError (unmount ss)
     ∧ observed (unmount ss) = []
     ∧ classes (unmount ss) = classes (s_state ss)).
Proof.
  intros Hmount Hrun.
  apply mount_mounted in Hmount as Hinv.
  pose proof (run_mounted _ _ _ _ _ Hinv Hrun) as Hinv'.
  destruct (unmount_spec _ _ _ Hinv') as (o & o' & Href & Href' & _ & Hts & _ & Hcl).
  unfold reevaluate, useScrollAnimation, effect.
  fold (unmount ss). rewrite (ensureObserver_reuse _ _ _ _ Href').
  unfold mbind, completion_bind.
  assert (Hq : querySelectorAll (unmount ss) = querySelectorAll (s_state ss)).
  { unfold unmount. by rewrite (cleanup_spec _ _ _ Href). }
  rewrite Hq. split.
  - intros Htok [ts ->].
    destruct (attach_all_valid (visibleClass_of a) (options_of a) ts
                (classes (unmount ss), o') Htok) as [r ->].
    by eexists.
  - intros ->. split; [done |]. split; [| done].
    unfold observed. by rewrite Href'.
Qed.

Lemma reevaluation_fails_on_the_selector_only_witness :
  let ss0 := completed (mount once_half (page true)) in
  let evs := [EHost (HQueue [mkEntry elA true; mkEntry elB false])] in
  let ss := completed (run evs ss0) in
  let a := mkArgs EmptyString None None in
  (token_error (visibleClass_of a) = None →
   is_Some (querySelectorAll (s_state ss) (a_targetSelector a)) →
   ∃ ss', reevaluate a ss = Ok ss')
  ∧ (querySelectorAll (s_state ss) (a_targetSelector a) = None →
     reevaluate a ss = Throw SyntaxError (unmount ss)
     ∧ observed (unmount ss) = []
     ∧ classes (unmount ss) = classes (s_state ss)).
Proof.
  intros ss0 evs ss a.
  apply (reevaluation_fails_on_the_selector_only once_half (page true) ss0 evs ss a);
    vm_compute; reflexivity.
Defined.

(** ** The loop over the targets and the pending records *)

(** X9: whatever records are pending when an evaluation reaches its loop, only
    the first matched target can see them: [takeRecords] empties the queue
    on the first turn.  If the loop completes, every later target is
    subscribed, the class lists of all elements but the first target are as
    they were, and the records are gone.  If it throws, it is
    [classList.add] on the first target that does, on a marker that is no
    well-formed token: nothing is marked, nothing is subscribed, and the
    records are gone as well. *)
Theorem only_the_first_target_sees_pending_records vc opts dom o t rest :
  match forEach (attachTarget vc opts) (t :: rest) (dom, o) with
  | Ok r =>
      (∀ t', t' ≠ t → r.1 t' = dom t')
      ∧ (∀ t', t' ∈ rest → t' ∈ io_targets r.2)
      ∧ io_queue r.2 = []
  | Throw e r =>
      token_error vc = Some e
      ∧ r.1 = dom
      ∧ io_targets r.2 = io_targets o
      ∧ io_queue r.2 = []
  end.
Proof.
  cbn [forEach].
  destruct (attachTarget vc opts (dom, o) t) as [[dom1 o1] | e r] eqn:Hfirst.
  - apply attachTarget_Ok in Hfirst as (_ & Hq & _ & _ & _ & Hframe).
    simpl in Hq, Hframe.
    destruct (attach_all_quiet vc opts rest dom1 o1 Hq) as (r & -> & Hd & Hq' & Hin).
    repeat split; try done.
    + intros t' Hne. rewrite Hd. by apply Hframe.
    + intros t' Ht'. apply Hin. by right.
  - by apply attachTarget_Throw in Hfirst as (Htok & Hd & Hts & Hq & _).
Qed.

(** X10: a target for which an intersecting record is pending when its turn
    comes gets the marker at once, where the marker is a token that
    [classList] takes; it is subscribed by that turn only if [triggerOnce]
    is falsy; the pending records are taken either way. *)
Theorem pending_intersecting_record_marks_at_once vc opts dom o t :
  token_error vc = None →
  mkEntry t true ∈ io_queue o →
  ∃ r, attachTarget vc opts (dom, o) t = Ok r
       ∧ vc ∈ r.1 t
       ∧ io_queue r.2 = []
       ∧ (truthy (triggerOnce opts) = true → io_targets r.2 = io_targets o)
       ∧ (truthy (triggerOnce opts) = false → t ∈ io_targets r.2).
Proof.
  intros Htok Hin. unfold attachTarget, takeRecords.
  assert (Hex : existsb (λ entry, bool_decide (target entry = t) && isIntersecting entry)
                  (io_queue o) = true).
  { apply existsb_exists. exists (mkEntry t true). split.
    - by apply list_elem_of_In.
    - simpl. by rewrite bool_decide_eq_true_2. }
  rewrite Hex.
  pose proof (dom_add_inv t vc dom _ eq_refl) as Hadd.
  destruct (dom_add t vc dom) as [dom' | e dom'];
    [| destruct Hadd as [Hbad _]; congruence].
  destruct Hadd as (_ & Hmark & _).
  destruct (truthy (triggerOnce opts)); simpl; eexists; (split; [done |]); simpl.
  - by repeat split.
  - rewrite observe_queue. repeat split; try done.
    intros _. apply elem_of_observe. by right.
Qed.

Lemma pending_intersecting_record_marks_at_once_witness :
  ∃ r, attachTarget "is-visible" default_options (λ _, [], pending_engine) elA = Ok r
       ∧ "is-visible" ∈ r.1 elA
       ∧ io_queue r.2 = []
       ∧ (truthy (triggerOnce default_options) = true
          → io_targets r.2 = io_targets pending_engine)
       ∧ (truthy (triggerOnce default_options) = false → elA ∈ io_targets r.2).
Proof.
  apply (pending_intersecting_record_marks_at_once "is-visible" default_options
           (λ _, []) pending_engine elA).
  - reflexivity.
  - vm_compute. apply list_elem_of_here.
Defined.

(** A re-evaluation that finds the reports of both elements pending: the
    first element is marked at once and not subscribed, the second one is
    subscribed and not marked; with the empty marker the same re-evaluation
    throws. *)
Example reevaluation_on_pending_records :
  outcome (reevaluate once_half pending_session) = Some (["is-visible"], [], [elB])
  ∧ match reevaluate (mkArgs ".x" (Some EmptyString) None) pending_session with
    | Throw e s => e = SyntaxError ∧ observed s = [] ∧ classes s elA = []
    | Ok _ => False
    end.
Proof. split; vm_compute; [reflexivity | by repeat split]. Qed.

(** ** The cleanup *)

(** X11: the cleanup releases the targets of its node list and no other; it
    takes no marker off: what was marked stays marked after a teardown. *)
Theorem cleanup_releases_its_node_list ts s :
  classes (cleanup ts s) = classes s
  ∧ constructed (cleanup ts s) = constructed s
  ∧ (∀ t, t ∈ observed (cleanup ts s) ↔ t ∈ observed s ∧ t ∉ ts).
Proof.
  split; [apply cleanup_classes |].
  unfold cleanup, observed. destruct (observerRef s) as [o |] eqn:Href; simpl.
  - split; [done |]. apply (release_all_spec ts o).
  - rewrite Href. split; [done |]. intros t. rewrite elem_of_nil. tauto.
Qed.

(** ** A batch under the one-shot policy *)

(** X12: with [triggerOnce] truthy and a marker that [classList] takes, the
    callback gets through a batch and settles every target it reports on:
    a target with an intersecting entry somewhere in the batch ends marked
    and unobserved; a target that the batch only reports as not
    intersecting, or not at all, keeps its class list and its
    subscription. *)
Theorem one_shot_batch cb es st :
  token_error (cb_visibleClass cb) = None →
  truthy (triggerOnce (cb_options cb)) = true →
  ∃ r, intersectionCallback cb es st = Ok r
       ∧ (∀ t, mkEntry t true ∈ es →
               cb_visibleClass cb ∈ r.1 t ∧ t ∉ io_targets r.2)
       ∧ (∀ t, mkEntry t true ∉ es →
               r.1 t = st.1 t ∧ (t ∈ io_targets r.2 ↔ t ∈ io_targets st.2)).
Proof.
  intros Htok Honce.
  destruct (intersectionCallback_valid cb es st Htok) as [r Hr].
  exists r. split; [done |]. split.
  - intros t Hin. apply list_elem_of_split in Hin as (es1 & es2 & ->).
    change (mkEntry t true :: es2) with ([mkEntry t true] ++ es2)%list in Hr.
    rewrite app_assoc, intersectionCallback_app in Hr.
    destruct (intersectionCallback cb (es1 ++ [mkEntry t true]) st) as [st1 | e st1]
      eqn:Hfirst; [| done].
    assert (H1 : cb_visibleClass cb ∈ st1.1 t ∧ t ∉ io_targets st1.2).
    { rewrite intersectionCallback_app in Hfirst.
      destruct (intersectionCallback cb es1 st) as [st0 | e st0]; [| done].
      unfold intersectionCallback in Hfirst. cbn [forEach] in Hfirst.
      destruct (handleEntry cb st0 (mkEntry t true)) as [st1' | e st1'] eqn:He; [| done].
      injection Hfirst as <-.
      by apply (handleEntry_once_enter cb Honce) in He as (_ & ? & ?). }
    destruct H1 as [Hm Hout].
    destruct (intersectionCallback_once_settled cb Honce es2 st1) as [_ Hkeep].
    destruct (intersectionCallback_settled cb es2 st1) as (_ & _ & Hsub & _).
    rewrite Hr in Hkeep, Hsub. simpl in Hkeep, Hsub.
    split; [by rewrite Hkeep | ]. intros Hx. by apply Hout, Hsub.
  - clear Htok. revert st r Hr. induction es as [| e es IH]; intros st r Hr t Hnot.
    + injection Hr as <-. done.
    + apply not_elem_of_cons in Hnot as [Hne Hnot].
      unfold intersectionCallback in Hr. cbn [forEach] in Hr.
      destruct (handleEntry cb st e) as [st1 | er st1] eqn:He; [| done].
      destruct (IH st1 r Hr t Hnot) as [Hd Ht]. rewrite Hd, Ht. clear IH Hd Ht.
      destruct e as [t' b]. destruct b.
      * assert (Hne' : t ≠ t') by congruence.
        destruct (handleEntry_Ok cb st _ st1 He) as (Hframe & _).
        split; [by apply Hframe |].
        destruct st as [dom o]. unfold handleEntry in He. simpl in He.
        rewrite Honce in He. destruct (dom_add _ _ _); [| done].
        injection He as <-. simpl. rewrite list_elem_of_filter. tauto.
      * rewrite handleEntry_once_leave in He by done. by injection He as <-.
Qed.

Lemma one_shot_batch_witness :
  let cb := mkCallback "is-visible" default_options in
  let st : Live := (λ _, [], mkObserver 0 cb (JNum (1 # 10)) (JStr "0px") [elA; elB] []) in
  ∃ r, intersectionCallback cb [mkEntry elB false; mkEntry elA true; mkEntry elA false] st
       = Ok r
       ∧ (∀ t, mkEntry t true ∈ [mkEntry elB false; mkEntry elA true; mkEntry elA false] →
               cb_visibleClass cb ∈ r.1 t ∧ t ∉ io_targets r.2)
       ∧ (∀ t, mkEntry t true ∉ [mkEntry elB false; mkEntry elA true; mkEntry elA false] →
               r.1 t = st.1 t ∧ (t ∈ io_targets r.2 ↔ t ∈ io_targets st.2)).
Proof.
  intros cb st.
  apply (one_shot_batch cb [mkEntry elB false; mkEntry elA true; mkEntry elA false] st);
    reflexivity.
Defined.

(** ** Re-evaluation and the node list *)

(** X13: after a re-evaluation the instance observes targets of the node list
    that its selector has just matched, and no other: what the earlier
    evaluations had attached and the selector no longer matches is
    released. *)
Theorem reevaluation_observes_new_matches_only a0 s0 ss0 evs ss a ss' :
  mount a0 s0 = Ok ss0 →
  run evs ss0 = Ok ss →
  reevaluate a ss = Ok ss' →
  querySelectorAll (s_state ss) (a_targetSelector a) = Some (s_targets ss')
  ∧ (∀ t, t ∈ observed (s_state ss') → t ∈ s_targets ss').
Proof.
  intros Hmount Hrun Hre.
  apply mount_mounted in Hmount as Hinv.
  pose proof (run_mounted _ _ _ _ _ Hinv Hrun) as Hinv'.
  pose proof (reevaluate_mounted _ _ _ _ _ Hinv' Hre) as (o' & Href' & _ & _ & Hsub).
  split.
  - destruct Hinv' as (o & Href & _).
    unfold reevaluate, useScrollAnimation, mbind, completion_bind in Hre.
    destruct (effect _ _ _ _) as [[s' ts] | e s'] eqn:Heff; [| done].
    injection Hre as <-. simpl.
    rewrite (cleanup_spec _ _ _ Href) in Heff.
    apply effect_Ok_inv in Heff as (o1 & s1 & st & Hens & Hqs & _).
    rewrite (ensureObserver_reuse _ _ _ (fold_left (λ o t, unobserve t o) (s_targets ss) o))
      in Hens by done.
    by injection Hens as <- <-.
  - intros t. unfold observed. rewrite Href'. apply Hsub.
Qed.

Lemma reevaluation_observes_new_matches_only_witness :
  let ss0 := completed (mount once_half (page true)) in
  let evs := [EHost (HQueue [mkEntry elA true]); EHost HNotify;
              EHost (HDocument (λ _, Some [elB; 2]))] in
  let ss := completed (run evs ss0) in
  let a := mkArgs ".y" None None in
  let ss' := completed (reevaluate a ss) in
  querySelectorAll (s_state ss) (a_targetSelector a) = Some (s_targets ss')
  ∧ (∀ t, t ∈ observed (s_state ss') → t ∈ s_targets ss').
Proof.
  intros ss0 evs ss a ss'.
  apply (reevaluation_observes_new_matches_only once_half (page true) ss0 evs ss a ss');
    vm_compute; reflexivity.
Defined.

(** * A component with several calls of the hook *)

(** X14: every call of the hook in a component gets an engine of its own, built
    from the arguments of that call and numbered in the order of the calls;
    after the first render each engine observes what its own selector
    matched, and no element is marked yet. *)
Theorem every_call_gets_its_own_engine calls s s' hooks :
  mount_calls calls s = Ok (s', hooks) →
  length hooks = length calls
  ∧ constructed s' = constructed s + length calls
  ∧ classes s' = classes s
  ∧ (∀ i a, calls !! i = Some a →
       ∃ o ts, hooks !! i = Some (mkHook (Some o) ts)
               ∧ querySelectorAll s (a_targetSelector a) = Some ts
               ∧ io_id o = constructed s + i
               ∧ io_callback o = mkCallback (visibleClass_of a) (options_of a)
               ∧ io_threshold o = threshold (options_of a)
               ∧ io_rootMargin o = js_or (rootMargin (options_of a)) (JStr "0px")
               ∧ (∀ t, t ∈ io_targets o ↔ t ∈ ts)).
Proof.
  revert s s' hooks. induction calls as [| a calls IH]; intros s s' hooks; simpl.
  - intros [= <- <-]. repeat split; try done; lia.
  - unfold mbind, completion_bind.
    destruct (useScrollAnimation a (useRef_null s)) as [[s1 ts] | e s1] eqn:Hfirst;
      [| done].
    destruct (mount_calls calls s1) as [[s2 hooks'] | e s2] eqn:Hrest; [| done].
    intros [= <- <-].
    apply first_evaluation_spec in Hfirst
      as (_ & _ & Hq & _ & _ & Hqs & Hcl & Hc & o & Href & (Hid & Hcb & Hth & Hrm)
          & _ & Hin).
    destruct (IH _ _ _ Hrest) as (Hlen & Hc' & Hcl' & Hall).
    simpl. repeat split; try congruence; try lia.
    intros [| i] a' Hi; simpl in Hi.
    + injection Hi as <-. exists o, ts. simpl. rewrite Href.
      repeat split; try done; try apply Hin. simpl in Hid. lia.
    + destruct (Hall i a' Hi) as (o' & ts' & Hh & Hq' & Hid' & Hrest').
      exists o', ts'. simpl. rewrite Hqs in Hq'.
      repeat split; try done; try apply Hrest'. lia.
Qed.

Lemma every_call_gets_its_own_engine_witness :
  let r := match mount_calls App_calls App_page with
           | Ok p => p
           | Throw _ s => (s, [])
           end in
  length r.2 = length App_calls
  ∧ constructed r.1 = constructed App_page + length App_calls
  ∧ classes r.1 = classes App_page
  ∧ (∀ i a, App_calls !! i = Some a →
       ∃ o ts, r.2 !! i = Some (mkHook (Some o) ts)
               ∧ querySelectorAll App_page (a_targetSelector a) = Some ts
               ∧ io_id o = constructed App_page + i
               ∧ io_callback o = mkCallback (visibleClass_of a) (options_of a)
               ∧ io_threshold o = threshold (options_of a)
               ∧ io_rootMargin o = js_or (rootMargin (options_of a)) (JStr "0px")
               ∧ (∀ t, t ∈ io_targets o ↔ t ∈ ts)).
Proof.
  intros r.
  apply (every_call_gets_its_own_engine App_calls App_page r.1 r.2).
  vm_compute. reflexivity.
Defined.





(** * The repeating policy and the subscriptions *)

Lemma host_step_repeat s h o :
  observerRef s = Some o →
  truthy (triggerOnce (cb_options (io_callback o))) = false →
  ∃ o', observerRef (host_step s h) = Some o'
        ∧ io_callback o' = io_callback o
        ∧ io_targets o' = io_targets o.
Proof.
  intros Href Hrepeat. destruct h as [es | | q]; simpl.
  - rewrite Href. simpl. by eexists.
  - unfold notify. rewrite Href.
    destruct (io_queue o) as [| e q] eqn:Hq; [by exists o |].
    unfold takeRecords. rewrite Hq.
    set (o1 := mkObserver _ _ _ _ _ []).
    pose proof (intersectionCallback_repeat_observer (io_callback o1) Hrepeat
                  (e :: q) (classes s, o1)) as Hobs.
    exists (settled (intersectionCallback (io_callback o1) (e :: q) (classes s, o1))).2.
    split; [done |]. by rewrite Hobs.
  - by exists o.
Qed.

(** X16: in a session whose first evaluation had a falsy [triggerOnce], nothing
    that the host does ever ends a subscription: the targets under
    observation are the same after any sequence of reports and deliveries,
    and only a cleanup releases them. *)
Theorem repeating_session_keeps_subscriptions a s0 ss0 evs ss hs :
  mount a s0 = Ok ss0 →
  truthy (triggerOnce (options_of a)) = false →
  run evs ss0 = Ok ss →
  observed (host_run hs (s_state ss)) = observed (s_state ss).
Proof.
  intros Hmount Hrepeat Hrun.
  apply mount_mounted in Hmount as Hinv.
  pose proof (run_mounted _ _ _ _ _ Hinv Hrun) as (o & Href & (_ & Hcb & _) & _).
  simpl in Hcb.
  assert (Hgen : ∀ s o, observerRef s = Some o →
                   truthy (triggerOnce (cb_options (io_callback o))) = false →
                   observed (host_run hs s) = io_targets o).
  { unfold host_run. induction hs as [| h hs IH]; intros s1 o1 Href1 Hrep1; simpl.
    - unfold observed. by rewrite Href1.
    - destruct (host_step_repeat s1 h o1 Href1 Hrep1) as (o' & Href' & Hcb' & Hts').
      rewrite (IH _ o' Href'); [done | by rewrite Hcb']. }
  rewrite (Hgen _ o Href); [| by rewrite Hcb].
  unfold observed. by rewrite Href.
Qed.

Lemma repeating_session_keeps_subscriptions_witness :
  let a := mkArgs ".x" None (Some (mkOptions (JNum 0) (JBool false) JUndefined)) in
  let ss := completed (run [EHost (HQueue [mkEntry elA true]); ERender a]
                         (completed (mount a (page true)))) in
  let hs := [HQueue [mkEntry elA true; mkEntry elB true]; HNotify;
             HQueue [mkEntry elA false]; HNotify] in
  observed (host_run hs (s_state ss)) = observed (s_state ss).
Proof.
  intros a ss hs.
  apply (repeating_session_keeps_subscriptions a (page true)
           (completed (mount a (page true)))
           [EHost (HQueue [mkEntry elA true]); ERender a] ss hs).
  - vm_compute. reflexivity.
  - reflexivity.
  - vm_compute. reflexivity.
Defined.
